(** * SyncLog: bounded history of sync results (buteo-syncfw)

    A shallow embedding of [src/libbuteosyncfw/profile/SyncLog.cpp].

    The file has four parts.
    - The collaborators of [SyncLog] that live outside [SyncLog.cpp]
      ([SyncResults], the DOM element type, the tag and attribute names) are
      interfaces: a DOM tree type and the class [ResultsContract].
    - The value model (module [Value]): [SyncLogPrivate] with the owned
      [SyncResults] objects held by value (a null pointer is [None]).  Every
      member function of [SyncLog] is a function on this record.  The
      results that [addResults] takes by reference are a value here: this
      is the call with a temporary, as the constructor from a document
      makes it, or with an object of the caller.
    - The pointer model (module [Owned]): the member functions that
      allocate, free, read or write objects, over an explicit heap, with
      [new] and [delete] written out.  It is related to the value model by
      [Owned.observe]: an operation of the pointer model acts on what a log
      holds as the function of the value model does ([Owned.actsAs]).
      [Owned.addResultsRef] is [addResults] with the reference it takes:
      it is the function of the value model when the reference is to an
      object outside the log, and it is undefined when a full log is
      given a reference to its own oldest entry, which the eviction
      deletes before the copy is made.
    - A reference instance of [ResultsContract] (module [Reference]), on
      which both models are run. *)

From Stdlib Require Import ZArith List Bool Lia Sorted DecimalString DecimalZ.
From stdpp Require Import gmap strings list fin_maps sorting.
From Equations Require Import Equations.

Set Warnings "-register-all".
Local Open Scope Z_scope.

(** ** QString, QDateTime and QDomElement *)

Definition QString := string.

(** [QDateTime]: a null date-time is [None], any other one is its number of
    milliseconds since the epoch. *)
Definition QDateTime := option Z.

Definition isNull (t : QDateTime) : bool :=
  match t with None => true | Some _ => false end.

(** A DOM node is an element (tag name, attributes, children) or character
    data.  [firstChildElement] and [nextSiblingElement] skip the latter. *)
Inductive QDomNode :=
| DomElement (tag : QString) (attrs : gmap string QString) (children : list QDomNode)
| DomText (data : QString).

Definition childNodes (n : QDomNode) : list QDomNode :=
  match n with DomElement _ _ c => c | DomText _ => [] end.

(** [QDomElement::attribute(name)]: the value, or the empty string. *)
Definition attribute (n : QDomNode) (name : QString) : QString :=
  match n with
  | DomElement _ a _ => default EmptyString (a !! name)
  | DomText _ => EmptyString
  end.

Definition createElement (tag : QString) : QDomNode := DomElement tag ∅ [].

Definition setAttribute (n : QDomNode) (name value : QString) : QDomNode :=
  match n with
  | DomElement t a c => DomElement t (<[name := value]> a) c
  | DomText s => DomText s
  end.

Definition appendChild (n child : QDomNode) : QDomNode :=
  match n with
  | DomElement t a c => DomElement t a (c ++ [child])
  | DomText s => DomText s
  end.

(** The test of [firstChildElement(tag)] and [nextSiblingElement(tag)]: an
    element named [tag], or any element when [tag] is empty. *)
Definition isElementTagged (tag : QString) (n : QDomNode) : bool :=
  match n with
  | DomElement t _ _ => bool_decide (tag = EmptyString \/ t = tag)
  | DomText _ => false
  end.

(** A [QDomElement] handle obtained by navigation: null ([None]), or an
    element together with the siblings that follow it in its parent. *)
Definition QDomCursor := option (QDomNode * list QDomNode).

Fixpoint findElement (tag : QString) (siblings : list QDomNode) : QDomCursor :=
  match siblings with
  | [] => None
  | n :: rest => if isElementTagged tag n then Some (n, rest) else findElement tag rest
  end.

Definition firstChildElement (n : QDomNode) (tag : QString) : QDomCursor :=
  findElement tag (childNodes n).

Definition nextSiblingElement (c : QDomNode * list QDomNode) (tag : QString) : QDomCursor :=
  findElement tag (snd c).

Definition cursorSize (c : QDomCursor) : nat :=
  match c with None => O | Some (_, rest) => S (length rest) end.

Lemma findElement_size tag l : (cursorSize (findElement tag l) <= length l)%nat.
Proof.
  induction l as [|n l IH]; simpl; [lia|].
  destruct (isElementTagged tag n); simpl; lia.
Qed.

(** ** The SyncResults contract

    [SyncResults] and the names of [ProfileEngineDefs.h] are declared
    outside [SyncLog.cpp]: what [SyncLog.cpp] uses of them is taken as
    parameters. *)
Class ResultsContract := {
  SyncResults : Type;
  majorCode : SyncResults -> Z;
  minorCode : SyncResults -> Z;
  syncTime : SyncResults -> QDateTime;
  (** [SyncResults::operator<] *)
  lessThan : SyncResults -> SyncResults -> bool;
  (** [SyncResults::toXml(aDoc)] and [SyncResults(const QDomElement &)] *)
  resultsToXml : SyncResults -> QDomNode;
  resultsFromXml : QDomNode -> SyncResults;
  SYNC_RESULT_SUCCESS : Z;
  NO_ERROR : Z;
  TAG_SYNC_RESULTS : QString;
  TAG_SYNC_LOG : QString;
  ATTR_NAME : QString
}.

(** ** The value model *)
Module Value.

Section ValueModel.
Context {RC : ResultsContract}.

Definition isSyncSuccessful (aResults : SyncResults) : bool :=
  (majorCode aResults =? SYNC_RESULT_SUCCESS)
  && (minorCode aResults =? NO_ERROR)
  && negb (isNull (syncTime aResults)).

Record SyncLogPrivate := mkPrivate {
  iProfileName : QString;
  iResults : list SyncResults;
  iLastSuccessfulResults : option SyncResults
}.

(** [SyncLogPrivate::SyncLogPrivate()] followed by the assignment of the
    name in [SyncLog::SyncLog(const QString &)]. *)
Definition newSyncLog (aProfileName : QString) : SyncLogPrivate :=
  mkPrivate aProfileName [] None.

Definition updateLastSuccessfulResults (d : SyncLogPrivate) (aResults : SyncResults)
  : SyncLogPrivate :=
  if isSyncSuccessful aResults
     && match iLastSuccessfulResults d with
        | None => true
        | Some best => lessThan best aResults
        end
  then mkPrivate (iProfileName d) (iResults d) (Some aResults)
  else d.

Definition MAXLOGENTRIES : nat := 5.

(** [SyncLog::addResults], with the value of [aResults]: the call with
    results that are not an object of the log itself.  The reference and
    the order of [delete] and [new] are in [Owned.addResultsRef]. *)
Definition addResults (d : SyncLogPrivate) (aResults : SyncResults) : SyncLogPrivate :=
  let kept :=
    if (MAXLOGENTRIES <=? length (iResults d))%nat then tail (iResults d)
    else iResults d in
  updateLastSuccessfulResults
    (mkPrivate (iProfileName d) (kept ++ [aResults]) (iLastSuccessfulResults d))
    aResults.

Definition setProfileName (d : SyncLogPrivate) (aProfileName : QString) : SyncLogPrivate :=
  mkPrivate aProfileName (iResults d) (iLastSuccessfulResults d).

Definition profileName (d : SyncLogPrivate) : QString := iProfileName d.

Definition allResults (d : SyncLogPrivate) : list SyncResults := iResults d.

(** [QList::isEmpty] *)
Definition isEmpty {A} (l : list A) : bool :=
  match l with [] => true | _ => false end.

(** The returned pointer is null ([None]) on an empty list; [QList::last] is
    only reached on a non-empty one. *)
Definition lastResults (d : SyncLogPrivate) : option SyncResults :=
  if isEmpty (iResults d) then None else last (iResults d).

Definition lastSuccessfulResults (d : SyncLogPrivate) : option SyncResults :=
  iLastSuccessfulResults d.

(** A sequence of [addResults] calls, first to last. *)
Definition recordAll (d : SyncLogPrivate) (rs : list SyncResults) : SyncLogPrivate :=
  fold_left addResults rs d.

(** [SyncLog::toXml].  The element is created by [aDoc]; the document
    itself is not part of the log and is left out. *)
Definition toXml (d : SyncLogPrivate) : QDomNode :=
  let root := setAttribute (createElement TAG_SYNC_LOG) ATTR_NAME (iProfileName d) in
  let root :=
    match iLastSuccessfulResults d with
    | Some best =>
        if isEmpty (iResults d)
           || match head (iResults d) with
              | Some first => lessThan best first
              | None => false
              end
        then appendChild root (resultsToXml best)
        else root
    | None => root
    end in
  fold_left (fun root results => appendChild root (resultsToXml results)) (iResults d) root.

(** The [for] loop of [SyncLog::SyncLog(const QDomElement &)]: [results]
    is the cursor, advanced by [nextSiblingElement] until it is null. *)
Equations? hydrateLoop (results : QDomCursor) (d : SyncLogPrivate) : SyncLogPrivate
  by wf (cursorSize results) lt :=
  hydrateLoop None d := d;
  hydrateLoop (Some (element, siblings)) d :=
    hydrateLoop (nextSiblingElement (element, siblings) TAG_SYNC_RESULTS)
                (addResults d (resultsFromXml element)).
Proof.
  pose proof (findElement_size TAG_SYNC_RESULTS siblings).
  unfold nextSiblingElement; simpl. lia.
Qed.

Definition fromXml (aRoot : QDomNode) : SyncLogPrivate :=
  hydrateLoop (firstChildElement aRoot TAG_SYNC_RESULTS)
              (newSyncLog (attribute aRoot ATTR_NAME)).

End ValueModel.

(** ** Facts about the value model *)

Section ValueFacts.
Context {RC : ResultsContract}.

(** *** Shape of the retained list *)

Lemma updateLastSuccessfulResults_results d r :
  iResults (updateLastSuccessfulResults d r) = iResults d.
Proof. unfold updateLastSuccessfulResults. by destruct (_ && _). Qed.

Lemma updateLastSuccessfulResults_name d r :
  iProfileName (updateLastSuccessfulResults d r) = iProfileName d.
Proof. unfold updateLastSuccessfulResults. by destruct (_ && _). Qed.

Lemma addResults_results d r :
  iResults (addResults d r) =
  (if (MAXLOGENTRIES <=? length (iResults d))%nat then tail (iResults d) else iResults d)
  ++ [r].
Proof. unfold addResults. by rewrite updateLastSuccessfulResults_results. Qed.

Lemma addResults_name d r : iProfileName (addResults d r) = iProfileName d.
Proof. unfold addResults. by rewrite updateLastSuccessfulResults_name. Qed.

Lemma recordAll_snoc d rs r : recordAll d (rs ++ [r]) = addResults (recordAll d rs) r.
Proof. unfold recordAll. by rewrite fold_left_app. Qed.

Lemma recordAll_name d rs : iProfileName (recordAll d rs) = iProfileName d.
Proof.
  induction rs as [|r rs IH] using rev_ind; [done|].
  by rewrite recordAll_snoc, addResults_name.
Qed.

(** One eviction step keeps the window of the five newest entries. *)
Lemma window_step (rs : list SyncResults) r :
  (if (MAXLOGENTRIES <=? length (drop (length rs - 5) rs))%nat
   then tail (drop (length rs - 5) rs) else drop (length rs - 5) rs) ++ [r]
  = drop (length (rs ++ [r]) - 5) (rs ++ [r]).
Proof.
  unfold MAXLOGENTRIES. rewrite length_drop, length_app. cbn [length].
  destruct (Nat.leb_spec 5 (length rs - (length rs - 5))) as [Hfull|Hroom].
  - replace (tail (drop (length rs - 5) rs)) with (drop 1 (drop (length rs - 5) rs))
      by (by destruct (drop (length rs - 5) rs)).
    rewrite drop_drop.
    replace (length rs + 1 - 5)%nat with (length rs - 5 + 1)%nat by lia.
    rewrite drop_app_le by lia. done.
  - replace (length rs - 5)%nat with O by lia.
    replace (length rs + 1 - 5)%nat with O by lia. done.
Qed.

Lemma recordAll_results name (rs : list SyncResults) :
  iResults (recordAll (newSyncLog name) rs) = drop (length rs - 5) rs.
Proof.
  induction rs as [|r rs IH] using rev_ind; [done|].
  rewrite recordAll_snoc, addResults_results, IH. apply window_step.
Qed.

(** After any sequence [rs] of values recorded by [addResults] on a log
    constructed empty, the retained list has [min (length rs) 5] entries,
    at most five, and is the list of the five newest results (all of them
    while there are at most five), oldest first.  As [rs] is arbitrary
    this holds after each call of a longer sequence. *)
Theorem capacity_invariant (name : QString) (rs : list SyncResults) :
  length (iResults (recordAll (newSyncLog name) rs)) = Nat.min (length rs) 5
  /\ iResults (recordAll (newSyncLog name) rs) = drop (length rs - 5) rs
  /\ (length (iResults (recordAll (newSyncLog name) rs)) <= 5)%nat.
Proof.
  rewrite recordAll_results, length_drop. repeat split; lia.
Qed.

(** *** The success predicate *)




(** *** Accessors *)

Lemma lastResults_snoc d l x : iResults d = l ++ [x] -> lastResults d = Some x.
Proof.
  intros E. unfold lastResults. rewrite E, last_snoc.
  by destruct l.
Qed.

(** C8. [lastResults] returns the tail of the retained list, and a null
    pointer when the list is empty; [lastSuccessfulResults] returns the
    cached results, null when there is none.  Both are total. *)
Theorem accessors_never_fail (d : SyncLogPrivate) :
  (iResults d = [] -> lastResults d = None)
  /\ (forall l x, iResults d = l ++ [x] -> lastResults d = Some x)
  /\ (iLastSuccessfulResults d = None -> lastSuccessfulResults d = None)
  /\ lastSuccessfulResults d = iLastSuccessfulResults d.
Proof.
  repeat split.
  - intros E. unfold lastResults. by rewrite E.
  - intros l x. apply lastResults_snoc.
  - done.
Qed.

(** Right after the value [r] is recorded on [d], whatever [d] was, the
    retained list is not empty and [lastResults] is [r]. *)
Theorem addResults_lastResults (d : SyncLogPrivate) (r : SyncResults) :
  isEmpty (iResults (addResults d r)) = false
  /\ lastResults (addResults d r) = Some r.
Proof.
  pose proof (addResults_results d r) as E. split.
  - rewrite E. generalize (if (MAXLOGENTRIES <=? length (iResults d))%nat
                           then tail (iResults d) else iResults d).
    by intros [|x l].
  - by apply lastResults_snoc in E.
Qed.

(** *** Serialization *)

(** The condition under which the spec asks for a node of its own for the
    last successful results: they exist, and the retained list is empty or
    starts with an entry they are less than. *)
Definition bestNodeDue (d : SyncLogPrivate) : Prop :=
  exists best, iLastSuccessfulResults d = Some best
    /\ (iResults d = []
        \/ exists first rest, iResults d = first :: rest /\ lessThan best first = true).

(** The results written ahead of the retained ones. *)
Definition bestNode (d : SyncLogPrivate) : list SyncResults :=
  match iLastSuccessfulResults d with
  | Some best =>
      if isEmpty (iResults d)
         || match head (iResults d) with
            | Some first => lessThan best first
            | None => false
            end
      then [best] else []
  | None => []
  end.

Lemma appendChild_fold t a c (l : list SyncResults) :
  fold_left (fun root results => appendChild root (resultsToXml results)) l (DomElement t a c)
  = DomElement t a (c ++ map resultsToXml l).
Proof.
  revert c. induction l as [|r l IH]; intros c; simpl.
  - by rewrite app_nil_r.
  - by rewrite IH, <- app_assoc.
Qed.

Lemma toXml_shape d :
  toXml d = DomElement TAG_SYNC_LOG {[ ATTR_NAME := iProfileName d ]}
                       (map resultsToXml (bestNode d ++ iResults d)).
Proof.
  unfold toXml, bestNode, createElement, setAttribute.
  rewrite insert_empty, map_app.
  destruct (iLastSuccessfulResults d) as [best|]; [|apply appendChild_fold].
  destruct (_ || _); simpl; apply appendChild_fold.
Qed.

Lemma bestNode_due d best : bestNodeDue d -> iLastSuccessfulResults d = Some best -> bestNode d = [best].
Proof.
  intros (b & Hb & Hcond) E. unfold bestNode. rewrite E. rewrite Hb in E. injection E as ->.
  destruct Hcond as [-> | (first & rest & -> & Hlt)]; simpl; [done|]. by rewrite Hlt.
Qed.

Lemma bestNode_not_due d : ~ bestNodeDue d -> bestNode d = [].
Proof.
  unfold bestNodeDue, bestNode. intros Hno.
  destruct (iLastSuccessfulResults d) as [best|] eqn:E; [|done].
  destruct (iResults d) as [|first rest] eqn:Er; simpl.
  - exfalso. apply Hno. exists best. auto.
  - destruct (lessThan best first) eqn:Hlt; [|done].
    exfalso. apply Hno. exists best. split; [done|]. right. by exists first, rest.
Qed.

Lemma bestNodeDue_dec d : bestNodeDue d \/ ~ bestNodeDue d.
Proof.
  unfold bestNodeDue.
  destruct (iLastSuccessfulResults d) as [best|] eqn:E.
  - destruct (iResults d) as [|first rest] eqn:Er.
    + left. exists best. auto.
    + destruct (lessThan best first) eqn:Hlt.
      * left. exists best. split; [done|]. right. by exists first, rest.
      * right. intros (b & Hb & [Hnil | (f & r & Hcons & Hlt')]); [done|].
        congruence.
  - right. intros (b & Hb & _). congruence.
Qed.

(** C3. The children written by [toXml] are the retained results in order,
    preceded by one node for the last successful results exactly when those
    exist and the retained list is empty or its first entry is greater
    than them; in every other case only the retained results are written. *)
Theorem toXml_best_node (d : SyncLogPrivate) :
  (bestNodeDue d
   /\ exists best, iLastSuccessfulResults d = Some best
        /\ childNodes (toXml d) = resultsToXml best :: map resultsToXml (iResults d))
  \/ (~ bestNodeDue d
      /\ childNodes (toXml d) = map resultsToXml (iResults d)).
Proof.
  rewrite toXml_shape. simpl.
  destruct (bestNodeDue_dec d) as [Hdue | Hno].
  - left. split; [done|]. destruct Hdue as (best & Hb & Hcond).
    exists best. split; [done|].
    by rewrite (bestNode_due d best) by (by try exists best).
  - right. split; [done|]. by rewrite bestNode_not_due.
Qed.

(** *** Construction from a document *)

(** What the spec says the constructor from a document does: an empty log
    named by the document's attribute, then [addResults] once per child
    element tagged as results, in document order. *)
Definition hydrateSpec (aRoot : QDomNode) : SyncLogPrivate :=
  recordAll (newSyncLog (attribute aRoot ATTR_NAME))
            (map resultsFromXml
                 (List.filter (isElementTagged TAG_SYNC_RESULTS) (childNodes aRoot))).

Lemma hydrateLoop_recordAll (siblings : list QDomNode) d :
  hydrateLoop (findElement TAG_SYNC_RESULTS siblings) d
  = recordAll d (map resultsFromXml
                     (List.filter (isElementTagged TAG_SYNC_RESULTS) siblings)).
Proof.
  revert d. induction siblings as [|n rest IH]; intros d; simpl.
  - by simp hydrateLoop.
  - destruct (isElementTagged TAG_SYNC_RESULTS n); simpl; [|apply IH].
    simp hydrateLoop. unfold nextSiblingElement. simpl. apply IH.
Qed.

Lemma fromXml_hydrateSpec aRoot : fromXml aRoot = hydrateSpec aRoot.
Proof. apply hydrateLoop_recordAll. Qed.

(** C6. Constructing a log from a document gives the log obtained from an
    empty log, named by the document's name attribute, by calling
    [addResults] once per results child, in document order. *)
Theorem fromXml_is_recording (aRoot : QDomNode) :
  fromXml aRoot
  = fold_left addResults
      (map resultsFromXml (List.filter (isElementTagged TAG_SYNC_RESULTS) (childNodes aRoot)))
      (newSyncLog (attribute aRoot ATTR_NAME))
  /\ fromXml aRoot = hydrateSpec aRoot.
Proof. split; apply fromXml_hydrateSpec. Qed.

(** *** The last successful results *)

(** [m] is the maximum of [l] for the order of [SyncResults]. *)
Definition isMaximum (m : SyncResults) (l : list SyncResults) : Prop :=
  In m l /\ forall s, In s l -> s = m \/ lessThan s m = true.

Lemma addResults_best d r :
  iLastSuccessfulResults (addResults d r) =
  if isSyncSuccessful r
     && match iLastSuccessfulResults d with
        | None => true
        | Some best => lessThan best r
        end
  then Some r else iLastSuccessfulResults d.
Proof.
  unfold addResults, updateLastSuccessfulResults. simpl. by destruct (_ && _).
Qed.


Section TotalOrder.

(** [operator<] is a strict total order, as the spec has it. *)
Hypothesis lessThan_trans :
  forall a b c, lessThan a b = true -> lessThan b c = true -> lessThan a c = true.
Hypothesis lessThan_total :
  forall a b, lessThan a b = true \/ a = b \/ lessThan b a = true.

Lemma recordAll_best name (rs : list SyncResults) :
  match iLastSuccessfulResults (recordAll (newSyncLog name) rs) with
  | Some m => isMaximum m (List.filter isSyncSuccessful rs)
  | None => List.filter isSyncSuccessful rs = []
  end.
Proof.
  induction rs as [|r rs IH] using rev_ind; [done|].
  rewrite recordAll_snoc, addResults_best, List.filter_app. simpl.
  destruct (isSyncSuccessful r) eqn:Hr; simpl.
  2: { rewrite app_nil_r. apply IH. }
  destruct (iLastSuccessfulResults (recordAll (newSyncLog name) rs)) as [best|].
  - destruct IH as [Hin Hmax].
    destruct (lessThan best r) eqn:Hlt.
    + split; [apply in_app_iff; right; by left|].
      intros s [Hs | [<- | []]]%in_app_iff; [|by left].
      right. destruct (Hmax s Hs) as [-> | Hsb]; [done|]. by eapply lessThan_trans.
    + split; [apply in_app_iff; by left|].
      intros s [Hs | [<- | []]]%in_app_iff; [by apply Hmax|].
      destruct (lessThan_total best r) as [Hbr | [-> | Hrb]]; [congruence | by left | by right].
  - rewrite IH. split; [by left|]. intros s [<- | []]. by left.
Qed.

(** After any sequence of values recorded by [addResults] on a log
    constructed empty, the last successful results are the maximum, for
    the order of [SyncResults], of the successful results of the whole
    sequence, evicted or not, and there are none when no result of the
    sequence was successful. *)
Theorem best_successful_is_maximum (name : QString) (rs : list SyncResults) :
  match lastSuccessfulResults (recordAll (newSyncLog name) rs) with
  | Some m => isMaximum m (List.filter isSyncSuccessful rs)
  | None => List.filter isSyncSuccessful rs = []
  end.
Proof. apply recordAll_best. Qed.

(** *** Round trip through the document *)

Hypothesis lessThan_irrefl : forall a, lessThan a a = false.

(** The contract of [SyncResults] with the document: [toXml] writes an
    element tagged [TAG_SYNC_RESULTS], from which the constructor gives the
    same results back. *)
Hypothesis resultsToXml_tagged :
  forall r, isElementTagged TAG_SYNC_RESULTS (resultsToXml r) = true.
Hypothesis resultsFromXml_toXml :
  forall r, resultsFromXml (resultsToXml r) = r.

(** [a] is not after [b]. *)
Definition notAfter (a b : SyncResults) : Prop := lessThan b a = false.

(** The results were recorded in chronological order: none is less than
    the one recorded just before it. *)
Definition chronological (rs : list SyncResults) : Prop := Sorted notAfter rs.

Lemma notAfter_trans : Transitive notAfter.
Proof.
  unfold notAfter. intros a b c Hab Hbc.
  destruct (lessThan c a) eqn:Hca; [|done].
  destruct (lessThan_total a b) as [Hlt | [-> | Hlt]]; [|congruence..].
  pose proof (lessThan_trans c a b Hca Hlt). congruence.
Qed.

Lemma isMaximum_unique m m' l : isMaximum m l -> isMaximum m' l -> m = m'.
Proof.
  intros [Hin Hmax] [Hin' Hmax'].
  destruct (Hmax m' Hin') as [-> | Hlt]; [done|].
  destruct (Hmax' m Hin) as [-> | Hlt']; [done|].
  pose proof (lessThan_trans m m' m Hlt' Hlt) as Hmm.
  rewrite lessThan_irrefl in Hmm. discriminate.
Qed.

Lemma fromXml_toXml d :
  fromXml (toXml d) = recordAll (newSyncLog (iProfileName d)) (bestNode d ++ iResults d).
Proof.
  rewrite fromXml_hydrateSpec, toXml_shape. unfold hydrateSpec. simpl.
  rewrite lookup_singleton_eq. simpl. f_equal.
  induction (bestNode d ++ iResults d) as [|r l IH]; [done|].
  simpl. rewrite resultsToXml_tagged. simpl. by rewrite resultsFromXml_toXml, IH.
Qed.

Lemma In_drop (k : nat) (l : list SyncResults) x : In x (drop k l) -> In x l.
Proof. rewrite <- !list_elem_of_In. apply subseteq_drop. Qed.

Lemma SyncLogPrivate_eq (d d' : SyncLogPrivate) :
  iProfileName d = iProfileName d' -> iResults d = iResults d' ->
  iLastSuccessfulResults d = iLastSuccessfulResults d' -> d = d'.
Proof. destruct d, d'. simpl. congruence. Qed.

(** A recorded best that is a maximum of the successful results of [l]
    is what recording [l] from scratch finds. *)
Lemma recordAll_best_unique name l b :
  isMaximum b (List.filter isSyncSuccessful l) ->
  iLastSuccessfulResults (recordAll (newSyncLog name) l) = Some b.
Proof.
  intros Hb. pose proof (recordAll_best name l) as H.
  destruct (iLastSuccessfulResults (recordAll (newSyncLog name) l)) as [m|].
  - f_equal. by eapply isMaximum_unique.
  - destruct Hb as [Hin _]. rewrite H in Hin. destruct Hin.
Qed.

Lemma recordAll_roundtrip name (rs : list SyncResults) :
  chronological rs ->
  fromXml (toXml (recordAll (newSyncLog name) rs)) = recordAll (newSyncLog name) rs.
Proof.
  intros Hsorted. apply Sorted_StronglySorted in Hsorted; [|apply notAfter_trans].
  rewrite fromXml_toXml, recordAll_name. simpl.
  set (d := recordAll (newSyncLog name) rs).
  pose proof (recordAll_results name rs) as HW. fold d in HW.
  pose proof (recordAll_best name rs) as Hbest. fold d in Hbest.
  set (k := (length rs - 5)%nat) in *.
  assert (rs = take k rs ++ drop k rs) as Hsplit by (by rewrite take_drop).
  rewrite Hsplit in Hsorted.
  apply StronglySorted_app in Hsorted as (Hcross & _ & HsW).
  assert (length (drop k rs) <= 5)%nat as Hlen by (rewrite length_drop; lia).
  unfold bestNode. rewrite HW.
  destruct (iLastSuccessfulResults d) as [b|] eqn:Eb.
  - destruct Hbest as [Hin Hmax].
    assert (In b rs /\ isSyncSuccessful b = true) as [Hbrs Hbok] by (by apply filter_In).
    assert (forall l, (forall x, In x l -> In x rs) -> In b (List.filter isSyncSuccessful l) ->
              isMaximum b (List.filter isSyncSuccessful l)) as Hsub.
    { intros l Hl Hbl. split; [done|]. intros s [Hs Hsok]%filter_In.
      apply Hmax, filter_In. auto. }
    destruct (drop k rs) as [|first rest] eqn:EW; simpl.
    { (* an empty window means nothing was recorded *)
      exfalso. assert (length rs = O) as Hz.
      { pose proof (length_drop rs k) as Hl. rewrite EW in Hl. simpl in Hl. lia. }
      destruct rs; [destruct Hbrs | discriminate]. }
    destruct (lessThan b first) eqn:Hlt.
    + (* the best was evicted: it is written first and evicted again *)
      assert (~ In b (first :: rest)) as Hout.
      { intros [<- | Hrest].
        - rewrite lessThan_irrefl in Hlt. discriminate.
        - apply StronglySorted_inv in HsW as [_ Hall].
          rewrite Forall_forall in Hall. apply list_elem_of_In in Hrest.
          specialize (Hall b Hrest).
          unfold notAfter in Hall. congruence. }
      assert (length (first :: rest) = 5%nat) as Hfive.
      { destruct (decide (k = O)) as [Hk|Hk].
        - exfalso. apply Hout. rewrite <- EW, Hk. done.
        - rewrite <- EW, length_drop. lia. }
      apply SyncLogPrivate_eq.
      * rewrite recordAll_name. unfold d. by rewrite recordAll_name.
      * rewrite recordAll_results, HW. cbn [length app] in *.
        replace (S (S (length rest)) - 5)%nat with 1%nat by lia. done.
      * rewrite Eb. apply recordAll_best_unique. apply Hsub.
        -- intros x [<- | Hx]; [done|]. rewrite <- EW in Hx. by eapply In_drop.
        -- simpl. rewrite Hbok. by left.
    + (* the best is still retained *)
      assert (In b (first :: rest)) as Hkept.
      { rewrite Hsplit in Hbrs. apply in_app_iff in Hbrs as [Hold | Hnew].
        - assert (notAfter b first) as Hbf.
          { apply Hcross; [by apply list_elem_of_In | by left]. }
          unfold notAfter in Hbf.
          destruct (lessThan_total b first) as [? | [-> | ?]]; [congruence | by left | congruence].
        - done. }
      apply SyncLogPrivate_eq.
      * rewrite recordAll_name. unfold d. by rewrite recordAll_name.
      * rewrite recordAll_results, HW. cbn [app].
        replace (length (first :: rest) - 5)%nat with O by lia. done.
      * rewrite Eb. apply recordAll_best_unique. apply Hsub.
        -- intros x Hx. rewrite <- EW in Hx. by eapply In_drop.
        -- apply filter_In. auto.
  - simpl. apply SyncLogPrivate_eq.
    + rewrite recordAll_name. unfold d. by rewrite recordAll_name.
    + rewrite recordAll_results, HW.
      replace (length (drop k rs) - 5)%nat with O by lia. done.
    + rewrite Eb. pose proof (recordAll_best name (drop k rs)) as H.
      destruct (iLastSuccessfulResults (recordAll (newSyncLog name) (drop k rs))) as [m|]; [|done].
      destruct H as [[Hm Hok]%filter_In _]. apply In_drop in Hm.
      assert (In m (List.filter isSyncSuccessful rs)) as Hin by (apply filter_In; auto).
      rewrite Hbest in Hin. destruct Hin.
Qed.

(** C4, amended. For a log obtained from an empty one by recording results
    in chronological order, writing it to a document and constructing a
    log from that document gives the same profile name, the same retained
    results and the same last successful results, and writing the new log
    gives the same document again. *)
Theorem roundtrip_chronological (name : QString) (rs : list SyncResults) :
  chronological rs ->
  fromXml (toXml (recordAll (newSyncLog name) rs)) = recordAll (newSyncLog name) rs
  /\ toXml (fromXml (toXml (recordAll (newSyncLog name) rs)))
     = toXml (recordAll (newSyncLog name) rs).
Proof.
  intros Hrs. pose proof (recordAll_roundtrip name rs Hrs) as E.
  split; [done|]. by rewrite E.
Qed.

End TotalOrder.

End ValueFacts.

(** ** Further facts about the value model *)

Section ValueExtras.
Context {RC : ResultsContract}.

(** [syncResultPointerLessThan]: the two pointers are dereferenced when
    neither is null ([None]). *)
Definition syncResultPointerLessThan (aLhs aRhs : option SyncResults) : bool :=
  match aLhs, aRhs with
  | Some lhs, Some rhs => lessThan lhs rhs
  | _, _ => false
  end.

(** *** The window from any state *)


(** *** The last successful results only grow *)


Section Growth.
Hypothesis lessThan_trans :
  forall a b c, lessThan a b = true -> lessThan b c = true -> lessThan a c = true.


End Growth.

(** *** The profile name *)



(** The profile name survives the document, for every log and whatever
    [SyncResults] makes of its own elements. *)
Theorem profileName_roundtrip (d : SyncLogPrivate) :
  profileName (fromXml (toXml d)) = profileName d
  /\ attribute (toXml d) ATTR_NAME = profileName d.
Proof.
  assert (attribute (toXml d) ATTR_NAME = profileName d) as E.
  { rewrite toXml_shape. simpl. by rewrite lookup_singleton_eq. }
  split; [|done]. rewrite fromXml_hydrateSpec. unfold hydrateSpec, profileName.
  by rewrite recordAll_name.
Qed.

(** *** Construction from any document *)

(** Of a document with any number of children, the constructor keeps the
    five last results elements, in document order; text and elements
    with another tag are skipped; the name is the name attribute, empty
    when there is none; and a document without results elements gives
    the empty log. *)
Theorem fromXml_keeps_last_five (aRoot : QDomNode) :
  iResults (fromXml aRoot)
  = drop (length (List.filter (isElementTagged TAG_SYNC_RESULTS) (childNodes aRoot)) - 5)
         (map resultsFromXml
              (List.filter (isElementTagged TAG_SYNC_RESULTS) (childNodes aRoot)))
  /\ (length (iResults (fromXml aRoot)) <= 5)%nat
  /\ profileName (fromXml aRoot) = attribute aRoot ATTR_NAME
  /\ (List.filter (isElementTagged TAG_SYNC_RESULTS) (childNodes aRoot) = [] ->
      fromXml aRoot = newSyncLog (attribute aRoot ATTR_NAME)).
Proof.
  rewrite fromXml_hydrateSpec. unfold hydrateSpec, profileName.
  rewrite recordAll_results, recordAll_name, length_drop, length_map.
  split; [done|]. split; [lia|]. split; [done|]. by intros ->.
Qed.

(** *** The pointer comparator *)

(** [syncResultPointerLessThan] is irreflexive and transitive when
    [operator<] is, and a null pointer is neither less nor greater than
    any pointer.  So as soon as two results are ordered, being
    incomparable is not transitive: null is incomparable with both. *)
Theorem syncResultPointerLessThan_order :
  (forall a, lessThan a a = false) ->
  (forall a b c, lessThan a b = true -> lessThan b c = true -> lessThan a c = true) ->
  (forall p, syncResultPointerLessThan p p = false)
  /\ (forall p q r, syncResultPointerLessThan p q = true ->
                    syncResultPointerLessThan q r = true ->
                    syncResultPointerLessThan p r = true)
  /\ (forall p, syncResultPointerLessThan None p = false
                /\ syncResultPointerLessThan p None = false)
  /\ (forall a b, lessThan a b = true ->
                  syncResultPointerLessThan (Some a) None = false
                  /\ syncResultPointerLessThan None (Some a) = false
                  /\ syncResultPointerLessThan None (Some b) = false
                  /\ syncResultPointerLessThan (Some b) None = false
                  /\ syncResultPointerLessThan (Some a) (Some b) = true).
Proof.
  intros Hirr Htrans. split; [|split; [|split]].
  - intros [a|]; simpl; [apply Hirr | done].
  - intros [a|] [b|] [c|]; simpl; try done. apply Htrans.
  - intros [a|]; by simpl.
  - intros a b Hab. by simpl.
Qed.

End ValueExtras.

(** ** Facts that need the order of [SyncResults] *)

Section OrderedExtras.
Context {RC : ResultsContract}.

Hypothesis lessThan_trans :
  forall a b c, lessThan a b = true -> lessThan b c = true -> lessThan a c = true.
Hypothesis lessThan_total :
  forall a b, lessThan a b = true \/ a = b \/ lessThan b a = true.
Hypothesis lessThan_irrefl : forall a, lessThan a a = false.

Lemma lessThan_asym a b : lessThan a b = true -> lessThan b a = false.
Proof.
  intros Hab. destruct (lessThan b a) eqn:Hba; [|done].
  pose proof (lessThan_trans a b a Hab Hba) as Haa.
  rewrite lessThan_irrefl in Haa. discriminate.
Qed.

(** What [bestNode] is, by the state of the log. *)
Lemma bestNode_cases d :
  (iLastSuccessfulResults d = None /\ bestNode d = [])
  \/ (exists b, iLastSuccessfulResults d = Some b /\ iResults d = [] /\ bestNode d = [b])
  \/ (exists b first rest,
        iLastSuccessfulResults d = Some b /\ iResults d = first :: rest
        /\ lessThan b first = true /\ bestNode d = [b])
  \/ (exists b first rest,
        iLastSuccessfulResults d = Some b /\ iResults d = first :: rest
        /\ lessThan b first = false /\ bestNode d = []).
Proof.
  unfold bestNode. destruct (iLastSuccessfulResults d) as [b|]; [|by left].
  right. destruct (iResults d) as [|first rest]; simpl.
  - left. by exists b.
  - right. destruct (lessThan b first) eqn:Hlt; [left | right]; by exists b, first, rest.
Qed.

Lemma recordAll_nonempty name (l : list SyncResults) b :
  iLastSuccessfulResults (recordAll (newSyncLog name) l) = Some b ->
  In b l /\ isSyncSuccessful b = true
  /\ isMaximum b (List.filter isSyncSuccessful l)
  /\ iResults (recordAll (newSyncLog name) l) <> [].
Proof.
  intros Hb. pose proof (recordAll_best lessThan_trans lessThan_total name l) as Hmax.
  rewrite Hb in Hmax. destruct (Hmax) as [[Hin Hok]%filter_In _].
  do 3 (split; [done|]). rewrite recordAll_results. intros E.
  assert (length l = O) as Hz.
  { pose proof (length_drop l (length l - 5)) as Hl. rewrite E in Hl. simpl in Hl. lia. }
  destruct l; [destruct Hin | discriminate].
Qed.

(** Recorded in chronological order, the last successful results are
    written exactly once by [toXml]: in a node of their own when they are
    no longer retained, and as one of the retained results otherwise. *)
Theorem best_written_once (name : QString) (rs : list SyncResults) (b : SyncResults) :
  chronological rs ->
  iLastSuccessfulResults (recordAll (newSyncLog name) rs) = Some b ->
  (childNodes (toXml (recordAll (newSyncLog name) rs))
   = resultsToXml b :: map resultsToXml (iResults (recordAll (newSyncLog name) rs))
   /\ ~ In b (iResults (recordAll (newSyncLog name) rs)))
  \/ (childNodes (toXml (recordAll (newSyncLog name) rs))
      = map resultsToXml (iResults (recordAll (newSyncLog name) rs))
      /\ In b (iResults (recordAll (newSyncLog name) rs))).
Proof.
  intros Hsorted Hb.
  apply Sorted_StronglySorted in Hsorted;
    [|apply (notAfter_trans lessThan_trans lessThan_total)].
  destruct (recordAll_nonempty name rs b Hb) as (Hin & _ & _ & Hne).
  rewrite toXml_shape. cbn [childNodes].
  set (d := recordAll (newSyncLog name) rs) in *.
  pose proof (recordAll_results name rs) as HW. fold d in HW.
  assert (rs = take (length rs - 5) rs ++ iResults d) as Hsplit
    by (by rewrite HW, take_drop).
  rewrite Hsplit in Hsorted, Hin.
  apply StronglySorted_app in Hsorted as (Hcross & _ & HsW).
  destruct (bestNode_cases d)
    as [[E _] | [(b' & _ & E & _) | [(b' & first & rest & Eb & EW & Hlt & ->)
                                    | (b' & first & rest & Eb & EW & Hlt & ->)]]];
    [congruence | done | |].
  - left. rewrite Eb in Hb. injection Hb as ->. split; [done|].
    rewrite EW in *. intros [<- | Hrest].
    + rewrite lessThan_irrefl in Hlt. discriminate.
    + apply StronglySorted_inv in HsW as [_ Hall].
      rewrite Forall_forall in Hall. apply list_elem_of_In in Hrest.
      specialize (Hall b Hrest). unfold notAfter in Hall. congruence.
  - right. rewrite Eb in Hb. injection Hb as ->. split; [done|].
    apply in_app_iff in Hin as [Hold | Hnew]; [|done].
    rewrite EW in *.
    assert (notAfter b first) as Hbf.
    { apply Hcross; [by apply list_elem_of_In | by left]. }
    unfold notAfter in Hbf.
    destruct (lessThan_total b first) as [? | [-> | ?]]; [congruence | by left | congruence].
Qed.

(** *** When the document gives the log back *)

Section Stability.

Hypothesis resultsToXml_tagged :
  forall r, isElementTagged TAG_SYNC_RESULTS (resultsToXml r) = true.
Hypothesis resultsFromXml_toXml :
  forall r, resultsFromXml (resultsToXml r) = r.

(** A log recorded from scratch comes back from its document when its
    last successful results, if any, are retained and not written apart,
    or are written apart while five results are retained. *)
Lemma roundtrip_exact name (l : list SyncResults) :
  (forall b, iLastSuccessfulResults (recordAll (newSyncLog name) l) = Some b ->
             bestNode (recordAll (newSyncLog name) l) = [] ->
             In b (iResults (recordAll (newSyncLog name) l))) ->
  (forall b, bestNode (recordAll (newSyncLog name) l) = [b] ->
             length (iResults (recordAll (newSyncLog name) l)) = 5%nat) ->
  fromXml (toXml (recordAll (newSyncLog name) l)) = recordAll (newSyncLog name) l.
Proof.
  intros Hkept Hfull.
  rewrite (fromXml_toXml resultsToXml_tagged resultsFromXml_toXml), recordAll_name.
  cbn [newSyncLog iProfileName].
  set (d := recordAll (newSyncLog name) l) in *.
  pose proof (recordAll_results name l) as HW. fold d in HW.
  assert (length (iResults d) <= 5)%nat as Hlen by (rewrite HW, length_drop; lia).
  assert (forall x, In x (iResults d) -> In x l) as Hsub.
  { intros x Hx. rewrite HW in Hx. by eapply In_drop. }
  apply SyncLogPrivate_eq.
  - unfold d. by rewrite !recordAll_name.
  - rewrite recordAll_results.
    destruct (bestNode d) as [|b [|]] eqn:Enode; cbn [app length].
    + by replace (length (iResults d) - 5)%nat with O by lia.
    + rewrite (Hfull b eq_refl). done.
    + exfalso. unfold bestNode in Enode.
      destruct (iLastSuccessfulResults d); [destruct (_ || _)|]; discriminate.
  - destruct (iLastSuccessfulResults d) as [b|] eqn:Eb.
    + destruct (recordAll_nonempty name l b Eb) as (Hin & Hok & [_ Hmax] & _).
      apply (recordAll_best_unique lessThan_trans lessThan_total lessThan_irrefl).
      assert (In b (bestNode d ++ iResults d)) as Hb.
      { destruct (bestNode d) as [|b' rest] eqn:Enode; [by apply Hkept|].
        unfold bestNode in Enode. rewrite Eb in Enode.
        destruct (_ || _); [|discriminate]. injection Enode as <- <-. by left. }
      split; [apply filter_In; auto|].
      intros x [Hx Hxok]%filter_In. apply Hmax, filter_In. split; [|done].
      apply in_app_iff in Hx as [Hx | Hx]; [|by apply Hsub].
      unfold bestNode in Hx. rewrite Eb in Hx.
      destruct (_ || _); [|destruct Hx]. by destruct Hx as [<- | []].
    + pose proof (recordAll_best lessThan_trans lessThan_total name l) as Hnone.
      fold d in Hnone. rewrite Eb in Hnone.
      assert (bestNode d = []) as -> by (unfold bestNode; by rewrite Eb).
      pose proof (recordAll_best lessThan_trans lessThan_total name ([] ++ iResults d)) as H.
      destruct (iLastSuccessfulResults (recordAll (newSyncLog name) ([] ++ iResults d)))
        as [m|]; [|done].
      destruct H as [[Hm Hmok]%filter_In _]. cbn [app] in Hm.
      assert (In m (List.filter isSyncSuccessful l)) as Hin by (apply filter_In; auto).
      rewrite Hnone in Hin. destruct Hin.
Qed.

(** Whatever the order in which results were recorded, the log read back
    from the document of a log comes back from its own document: a
    second round trip changes nothing, in the log or in the document. *)
Theorem roundtrip_stabilises (name : QString) (rs : list SyncResults) :
  fromXml (toXml (fromXml (toXml (recordAll (newSyncLog name) rs))))
  = fromXml (toXml (recordAll (newSyncLog name) rs))
  /\ toXml (fromXml (toXml (fromXml (toXml (recordAll (newSyncLog name) rs)))))
     = toXml (fromXml (toXml (recordAll (newSyncLog name) rs))).
Proof.
  assert (fromXml (toXml (fromXml (toXml (recordAll (newSyncLog name) rs))))
          = fromXml (toXml (recordAll (newSyncLog name) rs))) as E; [|by rewrite E].
  rewrite (fromXml_toXml resultsToXml_tagged resultsFromXml_toXml (recordAll _ rs)).
  rewrite recordAll_name. cbn [newSyncLog iProfileName].
  set (d := recordAll (newSyncLog name) rs).
  pose proof (recordAll_results name rs) as HW. fold d in HW.
  assert (length (iResults d) <= 5)%nat as Hlen by (rewrite HW, length_drop; lia).
  set (l1 := bestNode d ++ iResults d).
  pose proof (recordAll_results name l1) as HW1.
  destruct (bestNode_cases d)
    as [[Eb En] | [(b & Eb & EW & En) | [(b & first & rest & Eb & EW & Hlt & En)
                                        | (b & first & rest & Eb & EW & Hlt & En)]]].
  - (* no successful result at all *)
    apply roundtrip_exact.
    + intros b1 Hb1. exfalso.
      destruct (recordAll_nonempty name l1 b1 Hb1) as (Hin & Hok & _).
      unfold l1 in Hin. rewrite En in Hin. cbn [app] in Hin.
      rewrite HW in Hin. apply In_drop in Hin.
      pose proof (recordAll_best lessThan_trans lessThan_total name rs) as Hnone.
      fold d in Hnone. rewrite Eb in Hnone.
      assert (In b1 (List.filter isSyncSuccessful rs)) as H by (apply filter_In; auto).
      rewrite Hnone in H. destruct H.
    + intros b1 Hn1. exfalso. unfold bestNode in Hn1.
      destruct (iLastSuccessfulResults (recordAll (newSyncLog name) l1)) as [b2|] eqn:Hb2;
        [|discriminate].
      destruct (recordAll_nonempty name l1 b2 Hb2) as (Hin & Hok & _).
      unfold l1 in Hin. rewrite En in Hin. cbn [app] in Hin.
      rewrite HW in Hin. apply In_drop in Hin.
      pose proof (recordAll_best lessThan_trans lessThan_total name rs) as Hnone.
      fold d in Hnone. rewrite Eb in Hnone.
      assert (In b2 (List.filter isSyncSuccessful rs)) as H by (apply filter_In; auto).
      rewrite Hnone in H. destruct H.
  - (* a best without retained results: no log recorded from scratch *)
    exfalso. by destruct (recordAll_nonempty name rs b Eb) as (_ & _ & _ & Hne).
  - (* the best is written apart, ahead of the retained results *)
    destruct (recordAll_nonempty name rs b Eb) as (_ & Hbok & _ & _).
    assert (l1 = b :: first :: rest) as El1 by (unfold l1; by rewrite En, EW).
    assert (forall b1, iLastSuccessfulResults (recordAll (newSyncLog name) l1) = Some b1 ->
                       b1 = b \/ lessThan b b1 = true) as Hge.
    { intros b1 Hb1.
      destruct (recordAll_nonempty name l1 b1 Hb1) as (_ & _ & [_ Hmax] & _).
      destruct (Hmax b) as [-> | Hbb1]; [|by left | by right].
      apply filter_In. split; [|done]. rewrite El1. by left. }
    apply roundtrip_exact.
    + intros b1 Hb1 Hn1.
      destruct (recordAll_nonempty name l1 b1 Hb1) as (Hin & _ & _ & _).
      rewrite HW1. rewrite El1 in *. cbn [length] in *.
      destruct (decide (length rest < 4)%nat) as [Hshort | Hfive].
      * replace (S (S (length rest)) - 5)%nat with O by lia. done.
      * replace (S (S (length rest)) - 5)%nat with 1%nat
          by (rewrite EW in Hlen; cbn [length] in Hlen; lia).
        cbn [drop]. destruct Hin as [<- | Hin]; [|done]. exfalso.
        unfold bestNode in Hn1. rewrite Hb1, HW1 in Hn1. cbn [length] in Hn1.
        replace (S (S (length rest)) - 5)%nat with 1%nat in Hn1
          by (rewrite EW in Hlen; cbn [length] in Hlen; lia).
        cbn [drop isEmpty head orb] in Hn1. rewrite Hlt in Hn1. discriminate.
    + intros b1 Hn1. rewrite HW1. rewrite El1 in *. cbn [length] in *.
      destruct (decide (length rest < 4)%nat) as [Hshort | Hfive].
      * exfalso. unfold bestNode in Hn1.
        destruct (iLastSuccessfulResults (recordAll (newSyncLog name) (b :: first :: rest)))
          as [b2|] eqn:Hb2; [|discriminate].
        rewrite HW1 in Hn1. cbn [length] in Hn1.
        replace (S (S (length rest)) - 5)%nat with O in Hn1 by lia.
        cbn [drop isEmpty head orb] in Hn1.
        destruct (Hge b2 eq_refl) as [-> | Hbb2].
        -- rewrite lessThan_irrefl in Hn1. discriminate.
        -- rewrite (lessThan_asym _ _ Hbb2) in Hn1. discriminate.
      * rewrite length_drop. cbn [length].
        rewrite EW in Hlen. cbn [length] in Hlen. lia.
  - (* the best is not written apart: the document holds the retained results *)
    assert (l1 = iResults d) as El1 by (unfold l1; by rewrite En).
    destruct (decide (length rs <= 5)%nat) as [Hshort | Hlong].
    + (* nothing was evicted: the same list is recorded again *)
      assert (l1 = rs) as Hsame.
      { rewrite El1, HW. by replace (length rs - 5)%nat with O by lia. }
      rewrite Hsame. fold d.
      rewrite (fromXml_toXml resultsToXml_tagged resultsFromXml_toXml d).
      unfold d at 1. rewrite recordAll_name. cbn [newSyncLog iProfileName].
      change (bestNode d ++ iResults d) with l1. by rewrite Hsame.
    + assert (length l1 = 5%nat) as Hfive by (rewrite El1, HW, length_drop; lia).
      apply roundtrip_exact.
      * intros b1 Hb1 _. rewrite HW1, Hfive. cbn [drop Nat.sub].
        by destruct (recordAll_nonempty name l1 b1 Hb1) as (Hin & _).
      * intros b1 _. by rewrite HW1, Hfive.
Qed.

End Stability.

End OrderedExtras.

End Value.

(** ** The pointer model

    The objects that [SyncLog.cpp] allocates live in a heap: the
    [SyncResults] objects and the [SyncLogPrivate] objects, each kind in a
    map from addresses.  A member function is an operation on the heap
    that may be undefined ([None]): reading or deleting through a pointer
    to no live object.  A [SyncLog] is its [d_ptr].  The results that
    [addResults] takes by reference are passed by value here: the caller's
    object is one that the call does not delete.  [addResultsRef], further
    down, takes the reference itself. *)
Module Owned.

Abbreviation ptr := positive.

Section PointerModel.
Context {RC : ResultsContract}.

Record SyncLogPrivate := mkPrivate {
  iProfileName : QString;
  iResults : list ptr;
  iLastSuccessfulResults : option ptr
}.

Record Heap := mkHeap {
  resultsObjects : gmap ptr SyncResults;
  privateObjects : gmap ptr SyncLogPrivate
}.

Definition emptyHeap : Heap := mkHeap ∅ ∅.

Definition Op (A : Type) : Type := Heap -> option (A * Heap).

Definition ret {A} (x : A) : Op A := fun h => Some (x, h).

Definition bind {A B} (c : Op A) (k : A -> Op B) : Op B :=
  fun h => match c h with
           | Some (x, h') => k x h'
           | None => None
           end.

Definition undefined {A} : Op A := fun _ => None.

Notation "'let*' x := c 'in' k" := (bind c (fun x => k))
  (at level 10, x name, c at level 100, k at level 200).

(** [new SyncResults(r)] *)
Definition newResults (r : SyncResults) : Op ptr :=
  fun h => let p := fresh (dom (resultsObjects h)) in
           Some (p, mkHeap (<[p := r]> (resultsObjects h)) (privateObjects h)).

(** [delete p]: nothing for a null pointer. *)
Definition deleteResults (p : option ptr) : Op unit :=
  fun h => match p with
           | None => Some (tt, h)
           | Some p =>
               match resultsObjects h !! p with
               | Some _ => Some (tt, mkHeap (delete p (resultsObjects h)) (privateObjects h))
               | None => None
               end
           end.

(** [*p] *)
Definition readResults (p : ptr) : Op SyncResults :=
  fun h => match resultsObjects h !! p with
           | Some r => Some (r, h)
           | None => None
           end.

(** [new SyncLogPrivate(...)] *)
Definition newPrivate (d : SyncLogPrivate) : Op ptr :=
  fun h => let p := fresh (dom (privateObjects h)) in
           Some (p, mkHeap (resultsObjects h) (<[p := d]> (privateObjects h))).

Definition readPrivate (p : ptr) : Op SyncLogPrivate :=
  fun h => match privateObjects h !! p with
           | Some d => Some (d, h)
           | None => None
           end.

Definition writePrivate (p : ptr) (d : SyncLogPrivate) : Op unit :=
  fun h => match privateObjects h !! p with
           | Some _ => Some (tt, mkHeap (resultsObjects h) (<[p := d]> (privateObjects h)))
           | None => None
           end.

(** [delete d_ptr], once the destructor of the object has run. *)
Definition deletePrivate (p : ptr) : Op unit :=
  fun h => match privateObjects h !! p with
           | Some _ => Some (tt, mkHeap (resultsObjects h) (delete p (privateObjects h)))
           | None => None
           end.

(** [SyncLog::SyncLog(const QString &)] *)
Definition newSyncLog (aProfileName : QString) : Op ptr :=
  newPrivate (mkPrivate aProfileName [] None).

(** [qDeleteAll] *)
Fixpoint qDeleteAll (entries : list ptr) : Op unit :=
  match entries with
  | [] => ret tt
  | results :: rest => let* _ := deleteResults (Some results) in qDeleteAll rest
  end.

(** [SyncLogPrivate::~SyncLogPrivate()] and [SyncLog::~SyncLog()] *)
Definition destroySyncLog (this : ptr) : Op unit :=
  let* d := readPrivate this in
  let* _ := qDeleteAll (iResults d) in
  let* _ := writePrivate this (mkPrivate (iProfileName d) [] (iLastSuccessfulResults d)) in
  let* _ := deleteResults (iLastSuccessfulResults d) in
  deletePrivate this.

(** The [foreach] of the copy constructor: a new object per entry. *)
Fixpoint copyEach (source : list ptr) : Op (list ptr) :=
  match source with
  | [] => ret []
  | results :: rest =>
      let* r := readResults results in
      let* p := newResults r in
      let* ps := copyEach rest in
      ret (p :: ps)
  end.

(** [SyncLogPrivate::SyncLogPrivate(const SyncLogPrivate &)] *)
Definition copyPrivate (aSource : SyncLogPrivate) : Op SyncLogPrivate :=
  let* ps := copyEach (iResults aSource) in
  let* best :=
    match iLastSuccessfulResults aSource with
    | Some p => let* r := readResults p in let* q := newResults r in ret (Some q)
    | None => ret None
    end in
  ret (mkPrivate (iProfileName aSource) ps best).

(** [SyncLog::SyncLog(const SyncLog &)] *)
Definition copySyncLog (aSource : ptr) : Op ptr :=
  let* d := readPrivate aSource in
  let* c := copyPrivate d in
  newPrivate c.

Definition updateLastSuccessfulResults (this : ptr) (aResults : SyncResults) : Op unit :=
  let* d := readPrivate this in
  let* replace :=
    if Value.isSyncSuccessful aResults
    then match iLastSuccessfulResults d with
         | None => ret true
         | Some p => let* best := readResults p in ret (lessThan best aResults)
         end
    else ret false in
  if replace : bool
  then let* _ := deleteResults (iLastSuccessfulResults d) in
       let* p := newResults aResults in
       writePrivate this (mkPrivate (iProfileName d) (iResults d) (Some p))
  else ret tt.

(** [SyncLog::addResults] with the value of [aResults], as for a
    temporary: no read of the caller's object is made after a
    [delete].  [addResultsRef], further down, makes these reads. *)
Definition addResults (this : ptr) (aResults : SyncResults) : Op unit :=
  let* d := readPrivate this in
  let* _ :=
    if (Value.MAXLOGENTRIES <=? length (iResults d))%nat
    then match iResults d with
         | first :: rest =>
             (* [takeFirst], then [delete] of what it returned *)
             let* _ := writePrivate this
                         (mkPrivate (iProfileName d) rest (iLastSuccessfulResults d)) in
             deleteResults (Some first)
         | [] => undefined
         end
    else ret tt in
  let* p := newResults aResults in
  let* d := readPrivate this in
  let* _ := writePrivate this
              (mkPrivate (iProfileName d) (iResults d ++ [p]) (iLastSuccessfulResults d)) in
  updateLastSuccessfulResults this aResults.

Definition setProfileName (this : ptr) (aProfileName : QString) : Op unit :=
  let* d := readPrivate this in
  writePrivate this (mkPrivate aProfileName (iResults d) (iLastSuccessfulResults d)).

Definition profileName (this : ptr) : Op QString :=
  let* d := readPrivate this in ret (iProfileName d).

Definition lastResults (this : ptr) : Op (option ptr) :=
  let* d := readPrivate this in
  ret (if Value.isEmpty (iResults d) then None else last (iResults d)).

Definition allResults (this : ptr) : Op (list ptr) :=
  let* d := readPrivate this in ret (iResults d).

Definition lastSuccessfulResults (this : ptr) : Op (option ptr) :=
  let* d := readPrivate this in ret (iLastSuccessfulResults d).

(** The [foreach] of [toXml]: one child per entry. *)
Fixpoint appendEach (entries : list ptr) (root : QDomNode) : Op QDomNode :=
  match entries with
  | [] => ret root
  | results :: rest =>
      let* r := readResults results in
      appendEach rest (appendChild root (resultsToXml r))
  end.

Definition toXml (this : ptr) : Op QDomNode :=
  let* d := readPrivate this in
  let root := setAttribute (createElement TAG_SYNC_LOG) ATTR_NAME (iProfileName d) in
  let* root :=
    match iLastSuccessfulResults d with
    | Some p =>
        let* best := readResults p in
        let* due :=
          if Value.isEmpty (iResults d) then ret true
          else match head (iResults d) with
               | Some f => let* first := readResults f in ret (lessThan best first)
               | None => undefined
               end in
        ret (if due : bool then appendChild root (resultsToXml best) else root)
    | None => ret root
    end in
  appendEach (iResults d) root.

(** What a caller can see of a log: its name and the results its pointers
    lead to, as a log of the value model. *)
Definition view (m : gmap ptr SyncResults) (d : SyncLogPrivate)
  : option Value.SyncLogPrivate :=
  rs ← mapM (fun p => m !! p) (iResults d);
  best ← match iLastSuccessfulResults d with
          | Some p => Some <$> m !! p
          | None => Some None
          end;
  Some (Value.mkPrivate (iProfileName d) rs best).

Definition observe (h : Heap) (log : ptr) : option Value.SyncLogPrivate :=
  d ← privateObjects h !! log;
  view (resultsObjects h) d.

(** The pointers a log holds. *)
Definition footprint (d : SyncLogPrivate) : list ptr :=
  iResults d ++ option_list (iLastSuccessfulResults d).

(** The log at [log] owns its objects: its pointers are pairwise distinct
    and each leads to a live object. *)
Definition owns (h : Heap) (log : ptr) : Prop :=
  exists d, privateObjects h !! log = Some d
    /\ NoDup (footprint d)
    /\ Forall (fun p => is_Some (resultsObjects h !! p)) (footprint d).

(** Changes made to a log after it was copied. *)
Inductive Mutation :=
| Record (aResults : SyncResults)
| Rename (aProfileName : QString).

Definition mutate (log : ptr) (m : Mutation) : Op unit :=
  match m with
  | Record r => addResults log r
  | Rename n => setProfileName log n
  end.

Definition mutateValue (v : Value.SyncLogPrivate) (m : Mutation) : Value.SyncLogPrivate :=
  match m with
  | Record r => Value.addResults v r
  | Rename n => Value.setProfileName v n
  end.

(** A sequence of changes, each to the original ([true]) or to the copy
    ([false]). *)
Fixpoint mutateBoth (original copy : ptr) (ms : list (bool * Mutation)) : Op unit :=
  match ms with
  | [] => ret tt
  | (onOriginal, m) :: rest =>
      let* _ := mutate (if onOriginal then original else copy) m in
      mutateBoth original copy rest
  end.

(** The changes of [ms] made to the original ([true]) or the copy. *)
Definition changesOf (which : bool) (ms : list (bool * Mutation)) : list Mutation :=
  map snd (List.filter (fun m => eqb (fst m) which) ms).

End PointerModel.

(** *** Facts about the pointer model *)

Section PointerFacts.
Context {RC : ResultsContract}.

Notation "'let*' x := c 'in' k" := (bind c (fun x => k))
  (at level 10, x name, c at level 100, k at level 200).

Implicit Types (m : gmap ptr SyncResults) (privs : gmap ptr SyncLogPrivate).
Implicit Types (d : SyncLogPrivate) (v : Value.SyncLogPrivate).

(** [view] as a relation: the pointers of [d] lead, in [m], to the
    results of [v]. *)
Definition represents m d v : Prop :=
  iProfileName d = Value.iProfileName v
  /\ Forall2 (fun p r => m !! p = Some r) (iResults d) (Value.iResults v)
  /\ option_Forall2 (fun p r => m !! p = Some r)
                    (iLastSuccessfulResults d) (Value.iLastSuccessfulResults v).

Lemma view_represents m d v : view m d = Some v <-> represents m d v.
Proof.
  unfold view, represents. destruct d as [n ps best], v as [n' vs vbest]; simpl. split.
  - intros H. apply bind_Some in H as (rs & Hrs & H).
    apply bind_Some in H as (b & Hb & H). injection H as <- <- <-.
    split; [done|]. split; [by apply mapM_Some|].
    destruct best as [p|]; simpl in Hb.
    + apply fmap_Some in Hb as (r & Hr & ->). by constructor.
    + injection Hb as <-. constructor.
  - intros (-> & Hps & Hbest). apply mapM_Some in Hps. rewrite Hps. simpl.
    destruct Hbest as [p r Hr|]; simpl; [by rewrite Hr|done].
Qed.

Lemma represents_live m d v p : represents m d v -> p ∈ footprint d -> is_Some (m !! p).
Proof.
  intros (_ & Hps & Hbest) [Hp | Hp]%elem_of_app.
  - apply list_elem_of_lookup in Hp as [i Hi].
    destruct (Forall2_lookup_l _ _ _ _ _ Hps Hi) as (r & _ & Hr). by exists r.
  - destruct Hbest as [q r Hr|]; simpl in Hp; [|by apply elem_of_nil in Hp].
    apply list_elem_of_singleton in Hp as ->. by exists r.
Qed.

Lemma represents_frame m m' d v :
  (forall p, p ∈ footprint d -> m' !! p = m !! p) -> represents m d v -> represents m' d v.
Proof.
  unfold represents, footprint. destruct d as [n ps best], v as [n' vs vbest]; simpl.
  intros Hsame (Hn & Hps & Hbest). split; [done|]. split.
  - assert (Forall (fun p => m' !! p = m !! p) ps) as Hall.
    { apply Forall_forall. intros p Hp. apply Hsame, elem_of_app. by left. }
    clear Hsame Hbest. induction Hps as [|p r ps' rs Hp _ IH]; [constructor|].
    apply Forall_cons in Hall as [Hp' Hall]. constructor; [congruence|by apply IH].
  - destruct Hbest as [p r Hr|]; constructor.
    rewrite Hsame; [done|]. apply elem_of_app. right. simpl. by left.
Qed.

Lemma owns_represents h log :
  owns h log <->
  exists d v, privateObjects h !! log = Some d /\ NoDup (footprint d)
              /\ represents (resultsObjects h) d v.
Proof.
  split.
  - intros (d & Hd & Hnd & Hlive). exists d.
    assert (is_Some (view (resultsObjects h) d)) as [v Hv].
    { unfold view, footprint in *. apply Forall_app in Hlive as [Hps Hbest].
      assert (is_Some (mapM (fun p => resultsObjects h !! p) (iResults d))) as [rs ->].
      { apply mapM_is_Some. done. }
      simpl. destruct (iLastSuccessfulResults d) as [p|]; simpl; [|by eexists].
      apply Forall_singleton in Hbest as [r ->]. by eexists. }
    exists v. by rewrite <- view_represents.
  - intros (d & v & Hd & Hnd & Hrep). exists d. split; [done|]. split; [done|].
    apply Forall_forall. intros p Hp. by eapply represents_live.
Qed.

Lemma observe_represents h log v :
  observe h log = Some v <->
  exists d, privateObjects h !! log = Some d /\ represents (resultsObjects h) d v.
Proof.
  unfold observe. split.
  - intros (d & Hd & Hv)%bind_Some. exists d. by rewrite <- view_represents.
  - intros (d & -> & Hrep). simpl. by apply view_represents.
Qed.

(** How an operation on one log may change the results heap: the log's
    new pointers are old ones or were not live, and live objects that the
    log did not point to are untouched. *)
Definition evolves m d m' d' : Prop :=
  (forall p, p ∈ footprint d' -> p ∈ footprint d \/ m !! p = None)
  /\ (forall p, p ∉ footprint d -> is_Some (m !! p) -> m' !! p = m !! p).

Lemma evolves_refl m d : evolves m d m d.
Proof. split; auto. Qed.

Lemma evolves_trans m d m1 d1 m2 d2 :
  evolves m d m1 d1 -> evolves m1 d1 m2 d2 -> evolves m d m2 d2.
Proof.
  intros [Hfp1 Hfr1] [Hfp2 Hfr2]. split.
  - intros p Hp. destruct (Hfp2 p Hp) as [Hp1 | Hdead]; [by apply Hfp1|].
    destruct (decide (p ∈ footprint d)) as [|Hout]; [by left|]. right.
    destruct (m !! p) eqn:E; [|done].
    rewrite <- (Hfr1 p Hout) in E by (by rewrite E). congruence.
  - intros p Hout Hlive. rewrite <- (Hfr1 p Hout Hlive).
    apply Hfr2.
    + intros Hp1. destruct (Hfp1 p Hp1) as [|Hdead]; [done|].
      rewrite Hdead in Hlive. by destruct Hlive.
    + by rewrite (Hfr1 p Hout Hlive).
Qed.

(** An operation on the log at [this] that acts on it as [f] acts on its
    value, and keeps to the log's own objects. *)
Definition actsAs (op : Op unit) (this : ptr)
           (f : Value.SyncLogPrivate -> Value.SyncLogPrivate) : Prop :=
  forall m privs d v,
    privs !! this = Some d -> NoDup (footprint d) -> represents m d v ->
    exists m' d',
      op (mkHeap m privs) = Some (tt, mkHeap m' (<[this := d']> privs))
      /\ NoDup (footprint d')
      /\ represents m' d' (f v)
      /\ evolves m d m' d'.

Lemma actsAs_bind op1 op2 this f g :
  actsAs op1 this f -> actsAs op2 this g ->
  actsAs (let* _ := op1 in op2) this (fun v => g (f v)).
Proof.
  intros H1 H2 m privs d v Hd Hnd Hrep.
  destruct (H1 m privs d v Hd Hnd Hrep) as (m1 & d1 & E1 & Hnd1 & Hrep1 & Hev1).
  destruct (H2 m1 (<[this := d1]> privs) d1 (f v)) as (m2 & d2 & E2 & Hnd2 & Hrep2 & Hev2);
    [by rewrite lookup_insert_eq | done | done |].
  exists m2, d2. unfold bind. rewrite E1, E2, insert_insert_eq.
  do 3 (split; [done|]). by eapply evolves_trans.
Qed.

Lemma fresh_dead m : m !! fresh (dom m) = None.
Proof. apply not_elem_of_dom, is_fresh. Qed.

Lemma live_not_fresh m p : is_Some (m !! p) -> p <> fresh (dom m).
Proof. intros [r Hr] ->. by rewrite fresh_dead in Hr. Qed.

(** The three steps of [addResults]. *)
Definition evictOldest (this : ptr) : Op unit :=
  let* d := readPrivate this in
  if (Value.MAXLOGENTRIES <=? length (iResults d))%nat
  then match iResults d with
       | first :: rest =>
           let* _ := writePrivate this
                       (mkPrivate (iProfileName d) rest (iLastSuccessfulResults d)) in
           deleteResults (Some first)
       | [] => undefined
       end
  else ret tt.

Definition appendResults (this : ptr) (aResults : SyncResults) : Op unit :=
  let* p := newResults aResults in
  let* d := readPrivate this in
  writePrivate this
    (mkPrivate (iProfileName d) (iResults d ++ [p]) (iLastSuccessfulResults d)).

Lemma addResults_steps this r h :
  addResults this r h
  = (let* _ := evictOldest this in
     let* _ := appendResults this r in
     updateLastSuccessfulResults this r) h.
Proof.
  unfold addResults, evictOldest, appendResults, bind.
  destruct (readPrivate this h) as [[d h1]|]; [|done].
  lazymatch goal with
  | |- match ?c with _ => _ end = _ => destruct c as [[[] h2]|]; [|done]
  end.
  simpl. destruct (readPrivate this _) as [[d3 h3]|]; [|done].
  by destruct (writePrivate this _ h3) as [[[] h4]|].
Qed.

Lemma evictOldest_actsAs this :
  actsAs (evictOldest this) this
    (fun v => Value.mkPrivate (Value.iProfileName v)
                (if (Value.MAXLOGENTRIES <=? length (Value.iResults v))%nat
                 then tail (Value.iResults v) else Value.iResults v)
                (Value.iLastSuccessfulResults v)).
Proof.
  intros m privs d v Hd Hnd Hrep.
  assert (evictOldest this (mkHeap m privs)
          = (if (Value.MAXLOGENTRIES <=? length (iResults d))%nat
             then match iResults d with
                  | first :: rest =>
                      match m !! first with
                      | Some _ =>
                          Some (tt, mkHeap (delete first m)
                                      (<[this := mkPrivate (iProfileName d) rest
                                                   (iLastSuccessfulResults d)]> privs))
                      | None => None
                      end
                  | [] => None
                  end
             else Some (tt, mkHeap m privs))) as ->.
  { unfold evictOldest, bind, readPrivate. cbn [privateObjects]. rewrite Hd.
    destruct (Value.MAXLOGENTRIES <=? length (iResults d))%nat; [|done].
    destruct (iResults d) as [|first rest]; [done|].
    unfold writePrivate, deleteResults. cbn [privateObjects resultsObjects]. by rewrite Hd. }
  destruct d as [n ps best], v as [n' vs vbest].
  destruct Hrep as (Hn & Hps & Hbest). unfold footprint in *.
  cbn [iProfileName iResults iLastSuccessfulResults
       Value.iProfileName Value.iResults Value.iLastSuccessfulResults] in *.
  rewrite <- (Forall2_length _ _ _ Hps).
  destruct (Value.MAXLOGENTRIES <=? length ps)%nat eqn:Hfull.
  - destruct Hps as [|p r ps' vs' Hp Hps']; [discriminate|]. rewrite Hp.
    apply NoDup_cons in Hnd as [Hp_out Hnd].
    exists (delete p m), (mkPrivate n ps' best). split; [done|]. split; [done|]. split.
    + apply represents_frame with (m := m); [|done].
      intros q Hq. apply lookup_delete_ne. by intros ->.
    + split.
      * intros q Hq. left. simpl. by right.
      * intros q Hq _. apply lookup_delete_ne. intros ->. apply Hq. by left.
  - exists m, (mkPrivate n ps best). rewrite insert_id by done.
    split; [done|]. split; [done|]. split; [done|]. apply evolves_refl.
Qed.

Lemma appendResults_actsAs this r :
  actsAs (appendResults this r) this
    (fun v => Value.mkPrivate (Value.iProfileName v) (Value.iResults v ++ [r])
                (Value.iLastSuccessfulResults v)).
Proof.
  intros m privs d v Hd Hnd Hrep.
  assert (appendResults this r (mkHeap m privs)
          = Some (tt, mkHeap (<[fresh (dom m) := r]> m)
                        (<[this := mkPrivate (iProfileName d) (iResults d ++ [fresh (dom m)])
                                     (iLastSuccessfulResults d)]> privs))) as ->.
  { unfold appendResults, bind, newResults, readPrivate, writePrivate.
    cbn [privateObjects resultsObjects]. rewrite Hd.
    cbn [privateObjects resultsObjects]. by rewrite Hd. }
  set (q := fresh (dom m)).
  assert (q ∉ footprint d) as Hq.
  { intros Hin. by apply (represents_live m d v q Hrep), live_not_fresh in Hin. }
  exists (<[q := r]> m), (mkPrivate (iProfileName d) (iResults d ++ [q]) (iLastSuccessfulResults d)).
  split; [done|].
  assert (represents (<[q := r]> m) d v) as (Hn & Hps & Hbest).
  { apply represents_frame with (m := m); [|done].
    intros p Hp. apply lookup_insert_ne. by intros <-. }
  unfold footprint in *. simpl. split; [|split; [|split]].
  - rewrite <- app_assoc. apply NoDup_app in Hnd as (Hnd1 & Hdisj & Hnd2).
    apply NoDup_app. split; [done|]. split.
    + intros p Hp [-> | Hp']%elem_of_cons.
      * apply Hq, elem_of_app. by left.
      * by eapply Hdisj.
    + simpl. apply NoDup_cons. split; [|done].
      intros Hin. apply Hq, elem_of_app. by right.
  - split; [done|]. split; [|done]. simpl.
    apply Forall2_app; [done|]. constructor; [|constructor]. apply lookup_insert_eq.
  - intros p [[Hp | ->%list_elem_of_singleton]%elem_of_app | Hp]%elem_of_app.
    + left. apply elem_of_app. by left.
    + right. apply fresh_dead.
    + left. apply elem_of_app. by right.
  - intros p _ Hlive. apply lookup_insert_ne. intros <-.
    by apply live_not_fresh in Hlive.
Qed.

(** The results heap once the old last successful results are deleted. *)
Definition withoutBest m (best : option ptr) : gmap ptr SyncResults :=
  match best with Some p => delete p m | None => m end.

Lemma withoutBest_other m best p :
  p ∉ option_list best -> withoutBest m best !! p = m !! p.
Proof.
  destruct best as [q|]; simpl; [|done].
  intros Hp. apply lookup_delete_ne. intros ->. apply Hp. by left.
Qed.

Lemma withoutBest_dead m best p :
  withoutBest m best !! p = None -> p ∈ option_list best \/ m !! p = None.
Proof.
  destruct best as [q|]; simpl; [|by right].
  destruct (decide (p = q)) as [->|Hne]; [left; by left|].
  rewrite lookup_delete_ne by done. by right.
Qed.

Lemma updateLastSuccessfulResults_actsAs this r :
  actsAs (updateLastSuccessfulResults this r) this
    (fun v => Value.updateLastSuccessfulResults v r).
Proof.
  intros m privs d v Hd Hnd Hrep.
  destruct (Hrep) as (Hn & Hps & Hbest).
  set (replace := Value.isSyncSuccessful r
                  && match Value.iLastSuccessfulResults v with
                     | None => true
                     | Some best => lessThan best r
                     end).
  set (m1 := withoutBest m (iLastSuccessfulResults d)).
  set (q := fresh (dom m1)).
  assert (updateLastSuccessfulResults this r (mkHeap m privs)
          = if replace
            then Some (tt, mkHeap (<[q := r]> m1)
                             (<[this := mkPrivate (iProfileName d) (iResults d) (Some q)]> privs))
            else Some (tt, mkHeap m privs)) as ->.
  { unfold updateLastSuccessfulResults, bind, readPrivate. cbn [privateObjects]. rewrite Hd.
    subst replace q m1. destruct (Value.isSyncSuccessful r); [|done].
    destruct Hbest as [pb vb Hpb|]; cbn [andb].
    - unfold readResults. cbn [resultsObjects]. rewrite Hpb. unfold ret.
      destruct (lessThan vb r); [|done].
      unfold deleteResults, newResults, writePrivate. cbn [resultsObjects privateObjects].
      rewrite Hpb. cbn [resultsObjects privateObjects withoutBest]. by rewrite Hd.
    - unfold ret, deleteResults, newResults, writePrivate.
      cbn [resultsObjects privateObjects withoutBest]. by rewrite Hd. }
  unfold Value.updateLastSuccessfulResults. fold replace.
  destruct replace.
  2: { exists m, d. rewrite insert_id by done.
       do 3 (split; [done|]). apply evolves_refl. }
  assert (forall p, p ∈ iResults d -> p ∉ option_list (iLastSuccessfulResults d)) as Hsep.
  { intros p Hp Hp'. apply NoDup_app in Hnd as (_ & Hdisj & _). by eapply Hdisj. }
  assert (forall p, p ∈ iResults d -> <[q := r]> m1 !! p = m !! p) as Hkept.
  { intros p Hp. unfold m1.
    rewrite lookup_insert_ne, withoutBest_other; [done | by apply Hsep |].
    intros <-. apply (live_not_fresh m1 q); [|done]. unfold m1.
    rewrite withoutBest_other by (by apply Hsep).
    eapply represents_live; [done|]. apply elem_of_app. by left. }
  exists (<[q := r]> m1), (mkPrivate (iProfileName d) (iResults d) (Some q)).
  split; [done|]. unfold footprint. cbn [iResults iLastSuccessfulResults option_list].
  split; [|split; [|split]].
  - apply NoDup_app in Hnd as (Hnd & _ & _).
    apply NoDup_app. split; [done|]. split; [|apply NoDup_singleton].
    intros p Hp ->%list_elem_of_singleton.
    pose proof (Hkept q Hp) as E. rewrite lookup_insert_eq in E.
    assert (is_Some (m1 !! q)) as Hlive.
    { unfold m1. rewrite withoutBest_other by (by apply Hsep).
      rewrite <- E. by eexists. }
    by apply live_not_fresh in Hlive.
  - split; [done|]. split; cbn.
    + assert (Forall (fun p => <[q := r]> m1 !! p = m !! p) (iResults d)) as Hall
        by (by apply Forall_forall).
      clear Hkept Hsep Hnd Hrep Hd. revert Hall.
      induction Hps as [|p x ps xs Hp _ IH]; [constructor|].
      intros [Hp' Hall]%Forall_cons. constructor; [congruence | by apply IH].
    + constructor. apply lookup_insert_eq.
  - intros p [Hp | ->%list_elem_of_singleton]%elem_of_app.
    + left. apply elem_of_app. by left.
    + destruct (withoutBest_dead m (iLastSuccessfulResults d) q (fresh_dead m1)) as [Hq | Hq].
      * left. apply elem_of_app. by right.
      * by right.
  - intros p Hp Hlive.
    assert (m1 !! p = m !! p) as E.
    { apply withoutBest_other. intros Hin. apply Hp, elem_of_app. by right. }
    rewrite lookup_insert_ne, E; [done|].
    intros <-. apply (live_not_fresh m1 q); [|done]. by rewrite E.
Qed.

Lemma setProfileName_actsAs this name :
  actsAs (setProfileName this name) this (fun v => Value.setProfileName v name).
Proof.
  intros m privs d v Hd Hnd (Hn & Hps & Hbest).
  exists m, (mkPrivate name (iResults d) (iLastSuccessfulResults d)). split.
  { unfold setProfileName, bind, readPrivate, writePrivate. cbn [privateObjects].
    rewrite Hd. cbn [privateObjects resultsObjects]. by rewrite Hd. }
  do 2 (split; [done|]). split; [|done]. intros p Hp. by left.
Qed.

Lemma addResults_actsAs this r :
  actsAs (addResults this r) this (fun v => Value.addResults v r).
Proof.
  intros m privs d v Hd Hnd Hrep. rewrite addResults_steps.
  pose proof (actsAs_bind _ _ this _ _ (evictOldest_actsAs this)
                (actsAs_bind _ _ this _ _ (appendResults_actsAs this r)
                   (updateLastSuccessfulResults_actsAs this r))) as H.
  apply (H m privs d v Hd Hnd Hrep).
Qed.

Lemma mutate_actsAs this mu : actsAs (mutate this mu) this (fun v => mutateValue v mu).
Proof. destruct mu; [apply addResults_actsAs | apply setProfileName_actsAs]. Qed.

(** [addResults] with the value of the results, on a log that owns its
    objects, is defined, leaves the log owning its objects, and changes
    what it holds as [Value.addResults] does. *)
Theorem addResults_simulates (h : Heap) (this : ptr) (r : SyncResults) :
  owns h this ->
  exists v h',
    observe h this = Some v
    /\ addResults this r h = Some (tt, h')
    /\ owns h' this
    /\ observe h' this = Some (Value.addResults v r).
Proof.
  intros (d & v & Hd & Hnd & Hrep)%owns_represents.
  destruct h as [m privs]. cbn [privateObjects resultsObjects] in *.
  destruct (addResults_actsAs this r m privs d v Hd Hnd Hrep)
    as (m' & d' & E & Hnd' & Hrep' & _).
  exists v, (mkHeap m' (<[this := d']> privs)).
  split; [apply observe_represents; eauto|]. split; [done|]. split.
  - apply owns_represents. exists d', (Value.addResults v r).
    cbn [privateObjects resultsObjects]. by rewrite lookup_insert_eq.
  - apply observe_represents. exists d'.
    cbn [privateObjects resultsObjects]. by rewrite lookup_insert_eq.
Qed.

(** *** Copies *)

Lemma copyEach_spec ps : forall m privs vs,
  Forall2 (fun p r => m !! p = Some r) ps vs ->
  exists qs m',
    copyEach ps (mkHeap m privs) = Some (qs, mkHeap m' privs)
    /\ m ⊆ m'
    /\ NoDup qs
    /\ (forall q, q ∈ qs -> m !! q = None)
    /\ Forall2 (fun p r => m' !! p = Some r) qs vs.
Proof.
  induction ps as [|p ps IH]; intros m privs vs Hps.
  - apply Forall2_nil_inv_l in Hps as ->. exists [], m.
    split; [done|]. split; [done|]. split; [constructor|]. split; [|constructor].
    intros q Hq. by apply elem_of_nil in Hq.
  - apply Forall2_cons_inv_l in Hps as (r & vs' & Hp & Hps & ->).
    set (q := fresh (dom m)).
    assert (m ⊆ <[q := r]> m) as Hsub by apply insert_subseteq, fresh_dead.
    destruct (IH (<[q := r]> m) privs vs') as (qs & m' & E & Hsub' & Hnd & Hdead & Hqs).
    { eapply Forall2_impl; [done|]. intros x y Hx. exact (lookup_weaken _ _ _ _ Hx Hsub). }
    exists (q :: qs), m'. split.
    { cbn [copyEach]. unfold bind at 1. unfold readResults. cbn [resultsObjects]. rewrite Hp.
      unfold bind at 1. unfold newResults. cbn [resultsObjects privateObjects].
      unfold bind at 1. fold q. by rewrite E. }
    split; [by etrans|]. split; [|split].
    + apply NoDup_cons. split; [|done]. intros Hq. apply Hdead in Hq.
      by rewrite lookup_insert_eq in Hq.
    + intros x [-> | Hx]%elem_of_cons; [apply fresh_dead|].
      eapply lookup_weaken_None; [|done]. by apply Hdead.
    + constructor; [|done]. eapply lookup_weaken; [|done]. apply lookup_insert_eq.
Qed.

Lemma copyPrivate_spec m privs d v :
  represents m d v ->
  exists d' m',
    copyPrivate d (mkHeap m privs) = Some (d', mkHeap m' privs)
    /\ m ⊆ m'
    /\ NoDup (footprint d')
    /\ (forall q, q ∈ footprint d' -> m !! q = None)
    /\ represents m' d' v.
Proof.
  destruct d as [n ps best], v as [n' vs vbest]. unfold represents, footprint.
  cbn [iProfileName iResults iLastSuccessfulResults
       Value.iProfileName Value.iResults Value.iLastSuccessfulResults].
  intros (Hn & Hps & Hbest).
  destruct (copyEach_spec ps m privs _ Hps) as (qs & m1 & E & Hsub & Hnd & Hdead & Hqs).
  unfold copyPrivate. unfold bind at 1.
  cbn [iProfileName iResults iLastSuccessfulResults]. rewrite E.
  destruct Hbest as [pb vb Hpb|].
  - set (q := fresh (dom m1)).
    assert (m1 ⊆ <[q := vb]> m1) as Hsub1 by apply insert_subseteq, fresh_dead.
    exists (mkPrivate n qs (Some q)), (<[q := vb]> m1). split.
    { unfold bind, readResults, newResults, ret. cbn [resultsObjects privateObjects].
      by rewrite (lookup_weaken _ _ _ _ Hpb Hsub). }
    cbn [iProfileName iResults iLastSuccessfulResults option_list].
    split; [by etrans|]. split; [|split].
    + apply NoDup_app. split; [done|]. split; [|apply NoDup_singleton].
      intros x Hx ->%list_elem_of_singleton.
      apply list_elem_of_lookup in Hx as [i Hi].
      destruct (Forall2_lookup_l _ _ _ _ _ Hqs Hi) as (y & _ & Hy).
      unfold q in Hy. by rewrite fresh_dead in Hy.
    + intros x [Hx | ->%list_elem_of_singleton]%elem_of_app; [by apply Hdead|].
      eapply lookup_weaken_None; [apply fresh_dead | done].
    + split; [done|]. split.
      * eapply Forall2_impl; [done|]. intros x y Hx. exact (lookup_weaken _ _ _ _ Hx Hsub1).
      * constructor. apply lookup_insert_eq.
  - exists (mkPrivate n qs None), m1. split; [done|].
    cbn [iProfileName iResults iLastSuccessfulResults option_list]. rewrite app_nil_r.
    do 3 (split; [done|]). split; [done|]. split; [done|]. constructor.
Qed.

(** Two live logs that own their objects and share none, with what they
    hold. *)
Definition separate (h : Heap) (a b : ptr) (va vb : Value.SyncLogPrivate) : Prop :=
  a <> b
  /\ exists da db,
      privateObjects h !! a = Some da /\ privateObjects h !! b = Some db
      /\ NoDup (footprint da) /\ NoDup (footprint db)
      /\ (forall p, p ∈ footprint da -> p ∉ footprint db)
      /\ represents (resultsObjects h) da va
      /\ represents (resultsObjects h) db vb.

Lemma separate_sym h a b va vb : separate h a b va vb -> separate h b a vb va.
Proof.
  intros (Hne & da & db & Ha & Hb & Hnda & Hndb & Hdisj & Hra & Hrb).
  split; [done|]. exists db, da. do 4 (split; [done|]).
  split; [|done]. intros p Hp Hp'. by eapply Hdisj.
Qed.

Lemma separate_observe h a b va vb :
  separate h a b va vb -> observe h a = Some va /\ observe h b = Some vb.
Proof.
  intros (_ & da & db & Ha & Hb & _ & _ & _ & Hra & Hrb).
  split; apply observe_represents; eauto.
Qed.

Lemma copySyncLog_spec h a :
  owns h a ->
  exists v b h1,
    observe h a = Some v /\ copySyncLog a h = Some (b, h1) /\ separate h1 a b v v.
Proof.
  intros (d & v & Hd & Hnd & Hrep)%owns_represents.
  destruct h as [m privs]. cbn [privateObjects resultsObjects] in *.
  destruct (copyPrivate_spec m privs d v Hrep) as (d' & m' & E & Hsub & Hnd' & Hdead & Hrep').
  set (b := fresh (dom privs)).
  assert (privs !! b = None) as Hb by apply not_elem_of_dom, is_fresh.
  exists v, b, (mkHeap m' (<[b := d']> privs)).
  split; [apply observe_represents; eauto|]. split.
  { unfold copySyncLog, bind, readPrivate, newPrivate. cbn [privateObjects].
    rewrite Hd, E. done. }
  split; [congruence|]. exists d, d'. cbn [privateObjects resultsObjects].
  split; [rewrite lookup_insert_ne; [done | congruence]|].
  split; [apply lookup_insert_eq|]. do 2 (split; [done|]). split; [|split; [|done]].
  - intros p Hp Hp'. apply Hdead in Hp'.
    destruct (represents_live m d v p Hrep Hp) as [r Hr]. congruence.
  - apply represents_frame with (m := m); [|done].
    intros p Hp. destruct (represents_live m d v p Hrep Hp) as [r Hr].
    rewrite Hr. by eapply lookup_weaken.
Qed.

(** An operation on one of two separate logs leaves the other as it was. *)
Lemma separate_step h a b va vb op f :
  separate h a b va vb -> actsAs op b f ->
  exists h', op h = Some (tt, h') /\ separate h' a b va (f vb).
Proof.
  intros (Hne & da & db & Ha & Hb & Hnda & Hndb & Hdisj & Hra & Hrb) Hop.
  destruct h as [m privs]. cbn [privateObjects resultsObjects] in *.
  destruct (Hop m privs db vb Hb Hndb Hrb) as (m' & db' & E & Hndb' & Hrb' & Hgrow & Hframe).
  exists (mkHeap m' (<[b := db']> privs)). split; [done|]. split; [done|].
  exists da, db'. cbn [privateObjects resultsObjects].
  split; [by rewrite lookup_insert_ne|]. split; [apply lookup_insert_eq|].
  do 2 (split; [done|]). split; [|split; [|done]].
  - intros p Hp Hp'. destruct (Hgrow p Hp') as [Hold | Hdead]; [by eapply Hdisj|].
    destruct (represents_live m da va p Hra Hp) as [r Hr]. congruence.
  - apply represents_frame with (m := m); [|done].
    intros p Hp. apply Hframe; [by apply Hdisj|]. exact (represents_live m da va p Hra Hp).
Qed.

Lemma mutateBoth_spec a b ms : forall h va vb,
  separate h a b va vb ->
  exists h',
    mutateBoth a b ms h = Some (tt, h')
    /\ separate h' a b (fold_left mutateValue (changesOf true ms) va)
                       (fold_left mutateValue (changesOf false ms) vb).
Proof.
  induction ms as [|[[] mu] ms IH]; intros h va vb Hsep.
  - by exists h.
  - apply separate_sym in Hsep.
    destruct (separate_step h b a vb va _ _ Hsep (mutate_actsAs a mu)) as (h1 & E & Hsep1).
    apply separate_sym in Hsep1.
    destruct (IH h1 _ _ Hsep1) as (h' & E' & Hsep').
    exists h'. split; [|done]. cbn [mutateBoth]. unfold bind. by rewrite E.
  - destruct (separate_step h a b va vb _ _ Hsep (mutate_actsAs b mu)) as (h1 & E & Hsep1).
    destruct (IH h1 _ _ Hsep1) as (h' & E' & Hsep').
    exists h'. split; [|done]. cbn [mutateBoth]. unfold bind. by rewrite E.
Qed.

(** A copy of a log that owns its objects holds the same name, retained
    results and last successful results as the original, and whatever
    sequence of [setProfileName] calls and of [addResults] calls with
    the value of the results is then made on the two logs, each one ends
    as its own calls make it: no call on the copy changes what the
    original holds, nor the other way round. *)
Theorem copy_is_deep (h : Heap) (a : ptr) :
  owns h a ->
  exists v b h1,
    observe h a = Some v
    /\ copySyncLog a h = Some (b, h1)
    /\ observe h1 a = Some v
    /\ observe h1 b = Some v
    /\ forall ms, exists h2,
         mutateBoth a b ms h1 = Some (tt, h2)
         /\ observe h2 a = Some (fold_left mutateValue (changesOf true ms) v)
         /\ observe h2 b = Some (fold_left mutateValue (changesOf false ms) v).
Proof.
  intros Ha. destruct (copySyncLog_spec h a Ha) as (v & b & h1 & Hv & E & Hsep).
  exists v, b, h1. do 2 (split; [done|]).
  destruct (separate_observe _ _ _ _ _ Hsep) as [Hoa Hob]. do 2 (split; [done|]).
  intros ms. destruct (mutateBoth_spec a b ms h1 v v Hsep) as (h2 & E2 & Hsep2).
  exists h2. split; [done|]. by apply separate_observe in Hsep2.
Qed.

(** *** Serialization reads only *)

Lemma appendEach_spec m privs ps : forall vs root,
  Forall2 (fun p r => m !! p = Some r) ps vs ->
  appendEach ps root (mkHeap m privs)
  = Some (fold_left (fun root r => appendChild root (resultsToXml r)) vs root,
          mkHeap m privs).
Proof.
  induction ps as [|p ps IH]; intros vs root Hps.
  - by apply Forall2_nil_inv_l in Hps as ->.
  - apply Forall2_cons_inv_l in Hps as (r & vs' & Hp & Hps & ->).
    cbn [appendEach fold_left]. unfold bind, readResults. cbn [resultsObjects].
    rewrite Hp. by apply IH.
Qed.

Lemma toXml_spec m privs this d v :
  privs !! this = Some d -> represents m d v ->
  toXml this (mkHeap m privs) = Some (Value.toXml v, mkHeap m privs).
Proof.
  destruct d as [n ps best], v as [n' vs vbest]. unfold represents.
  cbn [iProfileName iResults iLastSuccessfulResults
       Value.iProfileName Value.iResults Value.iLastSuccessfulResults].
  intros Hd (-> & Hps & Hbest).
  unfold toXml, Value.toXml. unfold bind at 1. unfold readPrivate.
  cbn [privateObjects]. rewrite Hd.
  cbn [iProfileName iResults iLastSuccessfulResults
       Value.iProfileName Value.iResults Value.iLastSuccessfulResults].
  destruct Hbest as [pb vb Hpb|].
  - unfold bind at 1. unfold bind at 1. unfold readResults at 1.
    cbn [resultsObjects]. rewrite Hpb.
    destruct Hps as [|p r ps' vs' Hp Hps'].
    + done.
    + cbn [Value.isEmpty head orb]. unfold bind at 1. unfold bind at 1.
      unfold readResults at 1. cbn [resultsObjects]. rewrite Hp. unfold ret.
      apply (appendEach_spec m privs (p :: ps') (r :: vs')). by constructor.
  - unfold bind, ret. by apply appendEach_spec.
Qed.

(** C10. [toXml] on a log that owns its objects returns the document of
    what the log holds and leaves the heap as it was, so the name, the
    retained results and the last successful results are unchanged, and
    a second call returns the same document. *)
Theorem toXml_reads_only (h : Heap) (this : ptr) :
  owns h this ->
  exists v,
    observe h this = Some v
    /\ toXml this h = Some (Value.toXml v, h)
    /\ (let* first := toXml this in
        let* second := toXml this in
        ret (first, second)) h
       = Some ((Value.toXml v, Value.toXml v), h).
Proof.
  intros (d & v & Hd & _ & Hrep)%owns_represents. exists v.
  split; [apply observe_represents; eauto|].
  destruct h as [m privs]. cbn [privateObjects resultsObjects] in *.
  pose proof (toXml_spec m privs this d v Hd Hrep) as E.
  split; [done|]. unfold bind. by rewrite !E.
Qed.

End PointerFacts.

(** *** Accessors and constructors on the heap *)

Section PointerAccess.
Context {RC : ResultsContract}.

Notation "'let*' x := c 'in' k" := (bind c (fun x => k))
  (at level 10, x name, c at level 100, k at level 200).

Implicit Types (m : gmap ptr SyncResults) (privs : gmap ptr SyncLogPrivate).
Implicit Types (d : SyncLogPrivate) (v : Value.SyncLogPrivate).

(** The pointer [p] leads to a live object that holds [r]. *)
Definition pointsTo (h : Heap) (p : ptr) (r : SyncResults) : Prop :=
  resultsObjects h !! p = Some r.

(** On a log that owns its objects the accessors change nothing, and
    the pointers they return lead to live objects that hold what the
    accessors of the value model return; a null pointer is returned
    exactly where those return none. *)
Theorem accessors_simulate (h : Heap) (this : ptr) :
  owns h this ->
  exists v,
    observe h this = Some v
    /\ profileName this h = Some (Value.profileName v, h)
    /\ (exists ps, allResults this h = Some (ps, h)
                   /\ Forall2 (pointsTo h) ps (Value.allResults v))
    /\ (exists p, lastResults this h = Some (p, h)
                  /\ option_Forall2 (pointsTo h) p (Value.lastResults v))
    /\ (exists p, lastSuccessfulResults this h = Some (p, h)
                  /\ option_Forall2 (pointsTo h) p (Value.lastSuccessfulResults v)).
Proof.
  intros (d & v & Hd & _ & Hn & Hps & Hbest)%owns_represents. exists v.
  split; [apply observe_represents; exists d; by split|].
  unfold profileName, allResults, lastResults, lastSuccessfulResults, bind, readPrivate, ret.
  rewrite Hd. split; [by rewrite Hn|]. split; [by exists (iResults d)|]. split.
  - eexists. split; [done|]. unfold Value.lastResults.
    destruct Hps as [|p r ps rs Hp Hps]; [constructor|].
    cbn [Value.isEmpty]. apply Forall2_last. by constructor.
  - by exists (iLastSuccessfulResults d).
Qed.

Lemma actsAs_ret this : actsAs (ret tt) this (fun v => v).
Proof.
  intros m privs d v Hd Hnd Hrep. exists m, d. rewrite insert_id by done.
  do 3 (split; [done|]). apply evolves_refl.
Qed.

(** The loop of the constructor from a document, on the heap. *)
Equations? hydrateLoop (results : QDomCursor) (this : ptr) : Op unit
  by wf (cursorSize results) lt :=
  hydrateLoop None this := ret tt;
  hydrateLoop (Some (element, siblings)) this :=
    bind (addResults this (resultsFromXml element))
         (fun _ => hydrateLoop (nextSiblingElement (element, siblings) TAG_SYNC_RESULTS) this).
Proof.
  pose proof (findElement_size TAG_SYNC_RESULTS siblings).
  unfold nextSiblingElement; simpl. lia.
Qed.

(** [SyncLog::SyncLog(const QDomElement &)] *)
Definition fromXml (aRoot : QDomNode) : Op ptr :=
  let* this := newPrivate (mkPrivate (attribute aRoot ATTR_NAME) [] None) in
  let* _ := hydrateLoop (firstChildElement aRoot TAG_SYNC_RESULTS) this in
  ret this.

Lemma hydrateLoop_actsAs this (siblings : list QDomNode) :
  actsAs (hydrateLoop (findElement TAG_SYNC_RESULTS siblings) this) this
    (fun v => Value.recordAll v
                (map resultsFromXml
                     (List.filter (isElementTagged TAG_SYNC_RESULTS) siblings))).
Proof.
  induction siblings as [|n rest IH]; cbn [findElement List.filter].
  - simp hydrateLoop. apply actsAs_ret.
  - destruct (isElementTagged TAG_SYNC_RESULTS n); [|done].
    simp hydrateLoop. unfold nextSiblingElement. cbn [snd map].
    exact (actsAs_bind _ _ this _ _ (addResults_actsAs this (resultsFromXml n)) IH).
Qed.

(** A log that a constructor has just allocated, before any result is
    recorded, next to the logs that were there. *)
Lemma newPrivate_spec m privs name :
  let b := fresh (dom privs) in
  privs !! b = None
  /\ newPrivate (mkPrivate name [] None) (mkHeap m privs)
     = Some (b, mkHeap m (<[b := mkPrivate name [] None]> privs))
  /\ represents m (mkPrivate name [] None) (Value.newSyncLog name).
Proof.
  split; [apply not_elem_of_dom, is_fresh|]. split; [done|].
  split; [done|]. split; constructor.
Qed.

Lemma other_log_kept m privs m' d' b d0 a :
  privs !! b = None -> footprint d0 = [] ->
  evolves m d0 m' d' ->
  owns (mkHeap m privs) a ->
  owns (mkHeap m' (<[b := d']> privs)) a
  /\ observe (mkHeap m' (<[b := d']> privs)) a = observe (mkHeap m privs) a.
Proof.
  intros Hb Hfp [_ Hframe] (da & va & Ha & Hnda & Hra)%owns_represents.
  cbn [privateObjects resultsObjects] in *.
  assert (a <> b) as Hne by congruence.
  assert (represents m' da va) as Hra'.
  { apply represents_frame with (m := m); [|done].
    intros p Hp. apply Hframe; [rewrite Hfp; apply not_elem_of_nil|].
    by eapply represents_live. }
  split.
  - apply owns_represents. exists da, va. cbn [privateObjects resultsObjects].
    by rewrite lookup_insert_ne.
  - transitivity (Some va); [|symmetry]; apply observe_represents; exists da;
      cbn [privateObjects resultsObjects]; [by rewrite lookup_insert_ne | done].
Qed.

(** [newSyncLog] is defined on every heap: it returns a log that was not
    there, owns its objects and is the empty log of that name, and leaves
    every log that owned its objects as it was. *)
Theorem newSyncLog_fresh (h : Heap) (name : QString) :
  exists b h',
    newSyncLog name h = Some (b, h')
    /\ privateObjects h !! b = None
    /\ owns h' b
    /\ observe h' b = Some (Value.newSyncLog name)
    /\ resultsObjects h' = resultsObjects h
    /\ forall a, owns h a -> owns h' a /\ observe h' a = observe h a.
Proof.
  destruct h as [m privs].
  destruct (newPrivate_spec m privs name) as (Hb & E & Hrep).
  set (b := fresh (dom privs)) in *.
  exists b, (mkHeap m (<[b := mkPrivate name [] None]> privs)).
  split; [done|]. split; [done|]. split; [|split; [|split; [done|]]].
  - apply owns_represents. exists (mkPrivate name [] None), (Value.newSyncLog name).
    cbn [privateObjects resultsObjects]. rewrite lookup_insert_eq.
    split; [done|]. split; [constructor | done].
  - apply observe_represents. exists (mkPrivate name [] None).
    cbn [privateObjects resultsObjects]. by rewrite lookup_insert_eq.
  - intros a Ha.
    apply (other_log_kept m privs m _ b (mkPrivate name [] None) a Hb eq_refl);
      [apply evolves_refl | done].
Qed.

(** The constructor from a document is defined on every heap and for
    every document: it returns a log that was not there, owns its
    objects and holds what the constructor of the value model gives, and
    leaves every log that owned its objects as it was. *)
Theorem fromXml_simulates (h : Heap) (aRoot : QDomNode) :
  exists b h',
    fromXml aRoot h = Some (b, h')
    /\ privateObjects h !! b = None
    /\ owns h' b
    /\ observe h' b = Some (Value.fromXml aRoot)
    /\ forall a, owns h a -> owns h' a /\ observe h' a = observe h a.
Proof.
  destruct h as [m privs].
  destruct (newPrivate_spec m privs (attribute aRoot ATTR_NAME)) as (Hb & E & Hrep).
  set (b := fresh (dom privs)) in *.
  set (d0 := mkPrivate (attribute aRoot ATTR_NAME) [] None) in *.
  destruct (hydrateLoop_actsAs b (childNodes aRoot) m (<[b := d0]> privs) d0
              (Value.newSyncLog (attribute aRoot ATTR_NAME)))
    as (m' & d' & E' & Hnd' & Hrep' & Hev);
    [apply lookup_insert_eq | constructor | exact Hrep |].
  rewrite insert_insert_eq in E'.
  exists b, (mkHeap m' (<[b := d']> privs)).
  split. { unfold fromXml, bind, firstChildElement. fold d0. rewrite E, E'. done. }
  split; [done|]. split; [|split].
  - apply owns_represents. eexists d', _. cbn [privateObjects resultsObjects].
    rewrite lookup_insert_eq. eauto.
  - apply observe_represents. exists d'. cbn [privateObjects resultsObjects].
    rewrite lookup_insert_eq. split; [done|].
    by rewrite Value.fromXml_hydrateSpec.
  - intros a Ha. by apply (other_log_kept m privs m' d' b d0 a).
Qed.

End PointerAccess.

(** *** No object is leaked *)

Set Warnings "-clear-no-such-hyp".

Section PointerLeaks.
Context {RC : ResultsContract}.

Notation "'let*' x := c 'in' k" := (bind c (fun x => k))
  (at level 10, x name, c at level 100, k at level 200).

Implicit Types (m : gmap ptr SyncResults) (privs : gmap ptr SyncLogPrivate).
Implicit Types (d : SyncLogPrivate) (v : Value.SyncLogPrivate).










(** *** A copy and its destruction *)

Lemma copyEach_dom ps : forall h qs h',
  copyEach ps h = Some (qs, h') ->
  privateObjects h' = privateObjects h
  /\ forall p, is_Some (resultsObjects h' !! p) ->
               is_Some (resultsObjects h !! p) \/ p ∈ qs.
Proof.
  induction ps as [|p0 ps IH]; intros h qs h'.
  - intros [= <- <-]. split; [done|]. intros p Hp. by left.
  - cbn [copyEach]. unfold bind at 1. unfold readResults.
    destruct (resultsObjects h !! p0) as [r|]; [|done].
    unfold bind at 1. unfold newResults. unfold bind at 1.
    destruct (copyEach ps _) as [[qs' h'']|] eqn:E; [|done].
    intros [= <- <-]. destruct (IH _ _ _ E) as [Hprivs Hdom].
    cbn [privateObjects resultsObjects] in *. split; [done|]. intros p Hp.
    destruct (Hdom p Hp) as [Hold | Hnew]; [|right; by right].
    destruct (decide (p = fresh (dom (resultsObjects h)))) as [->|Hne]; [right; by left|].
    left. by rewrite lookup_insert_ne in Hold.
Qed.

Lemma copyPrivate_dom d h d' h' :
  copyPrivate d h = Some (d', h') ->
  forall p, is_Some (resultsObjects h' !! p) ->
            is_Some (resultsObjects h !! p) \/ p ∈ footprint d'.
Proof.
  unfold copyPrivate. unfold bind at 1.
  destruct (copyEach (iResults d) h) as [[qs h1]|] eqn:E; [|done].
  destruct (copyEach_dom _ _ _ _ E) as [_ Hdom].
  unfold bind, footprint.
  destruct (iLastSuccessfulResults d) as [pb|].
  - unfold readResults. destruct (resultsObjects h1 !! pb) as [r|]; [|done].
    unfold newResults, ret. intros [= <- <-] p Hp.
    cbn [resultsObjects iResults iLastSuccessfulResults option_list] in *.
    destruct (decide (p = fresh (dom (resultsObjects h1)))) as [->|Hne].
    + right. apply elem_of_app. right. by left.
    + rewrite lookup_insert_ne in Hp by done.
      destruct (Hdom p Hp); [by left|]. right. apply elem_of_app. by left.
  - unfold ret. intros [= <- <-] p Hp.
    cbn [iResults iLastSuccessfulResults option_list].
    destruct (Hdom p Hp); [by left|]. right. apply elem_of_app. by left.
Qed.

Lemma qDeleteAll_clears ps : forall m privs,
  NoDup ps -> Forall (fun p => is_Some (m !! p)) ps ->
  exists m',
    qDeleteAll ps (mkHeap m privs) = Some (tt, mkHeap m' privs)
    /\ (forall p, p ∉ ps -> m' !! p = m !! p)
    /\ (forall p, p ∈ ps -> m' !! p = None).
Proof.
  induction ps as [|p ps IH]; intros m privs Hnd Hlive.
  - exists m. split; [done|]. split; [done|]. intros p Hp. by apply elem_of_nil in Hp.
  - apply NoDup_cons in Hnd as [Hp Hnd]. apply Forall_cons in Hlive as [[r Hr] Hlive].
    destruct (IH (delete p m) privs Hnd) as (m' & E & Hframe & Hdead).
    { apply Forall_forall. intros q Hq. rewrite lookup_delete_ne by (by intros ->).
      by apply (proj1 (Forall_forall _ _) Hlive). }
    exists m'. split; [|split].
    + cbn [qDeleteAll]. unfold bind, deleteResults. cbn [resultsObjects privateObjects].
      by rewrite Hr.
    + intros q Hq. apply not_elem_of_cons in Hq as [Hne Hq].
      by rewrite Hframe, lookup_delete_ne.
    + intros q [-> | Hq]%elem_of_cons; [|by apply Hdead].
      rewrite Hframe by done. apply lookup_delete_eq.
Qed.

Lemma destroySyncLog_spec m privs this d v :
  privs !! this = Some d -> NoDup (footprint d) -> represents m d v ->
  exists m',
    destroySyncLog this (mkHeap m privs) = Some (tt, mkHeap m' (delete this privs))
    /\ (forall p, p ∉ footprint d -> m' !! p = m !! p)
    /\ (forall p, p ∈ footprint d -> m' !! p = None).
Proof.
  intros Hd Hnd Hrep. pose proof Hnd as Hnd'. unfold footprint in Hnd'.
  apply NoDup_app in Hnd' as (Hndps & Hsep & _).
  destruct (qDeleteAll_clears (iResults d) m privs Hndps) as (m1 & E1 & Hframe & Hdead).
  { apply Forall_forall. intros p Hp. eapply represents_live; [done|].
    apply elem_of_app. by left. }
  exists (withoutBest m1 (iLastSuccessfulResults d)). split; [|split].
  - unfold destroySyncLog. unfold bind at 1. unfold readPrivate. cbn [privateObjects].
    rewrite Hd. unfold bind at 1. rewrite E1.
    unfold bind at 1. unfold writePrivate. cbn [privateObjects resultsObjects]. rewrite Hd.
    unfold bind, deleteResults, deletePrivate.
    destruct (iLastSuccessfulResults d) as [pb|] eqn:Ebest;
      cbn [privateObjects resultsObjects withoutBest].
    + assert (is_Some (m1 !! pb)) as [r Hr].
      { rewrite Hframe.
        - eapply represents_live; [done|]. unfold footprint. rewrite Ebest.
          apply elem_of_app. right. by left.
        - intros Hin. apply (Hsep pb Hin). by left. }
      rewrite Hr. cbn [privateObjects resultsObjects].
      by rewrite lookup_insert_eq, delete_insert_eq.
    + by rewrite lookup_insert_eq, delete_insert_eq.
  - intros p Hp. unfold footprint in Hp. apply not_elem_of_app in Hp as [Hp1 Hp2].
    by rewrite withoutBest_other, Hframe.
  - intros p [Hp | Hp]%elem_of_app.
    + destruct (iLastSuccessfulResults d) as [pb|]; cbn [withoutBest]; [|by apply Hdead].
      destruct (decide (p = pb)) as [->|Hne]; [apply lookup_delete_eq|].
      rewrite lookup_delete_ne by done. by apply Hdead.
    + destruct (iLastSuccessfulResults d) as [pb|]; cbn [withoutBest option_list] in *;
        [|by apply elem_of_nil in Hp].
      apply list_elem_of_singleton in Hp as ->. apply lookup_delete_eq.
Qed.

(** Destroying one of two separate logs deletes its private object and
    every results object it points to (the retained ones and the last
    successful one), deletes nothing else, and leaves the other log
    owning its objects and holding what it held. *)
Theorem destroy_leaves_other (h : Heap) (a b : ptr) (va vb : Value.SyncLogPrivate) :
  separate h a b va vb ->
  exists db h',
    privateObjects h !! b = Some db
    /\ destroySyncLog b h = Some (tt, h')
    /\ privateObjects h' = delete b (privateObjects h)
    /\ privateObjects h' !! b = None
    /\ (forall p, p ∈ footprint db -> resultsObjects h' !! p = None)
    /\ (forall p, p ∉ footprint db -> resultsObjects h' !! p = resultsObjects h !! p)
    /\ owns h' a
    /\ observe h' a = Some va.
Proof.
  intros (Hne & da & db & Ha & Hb & Hnda & Hndb & Hdisj & Hra & Hrb).
  destruct h as [m privs]. cbn [privateObjects resultsObjects] in *.
  destruct (destroySyncLog_spec m privs b db vb Hb Hndb Hrb) as (m' & E & Hframe & Hfreed).
  exists db, (mkHeap m' (delete b privs)). cbn [privateObjects resultsObjects].
  split; [done|]. split; [done|]. split; [done|].
  split; [apply lookup_delete_eq|]. split; [done|]. split; [done|].
  assert (delete b privs !! a = Some da) as Ha' by (by rewrite lookup_delete_ne).
  assert (represents m' da va) as Hra'.
  { apply represents_frame with (m := m); [|done].
    intros p Hp. apply Hframe. by apply Hdisj. }
  split.
  - apply owns_represents. exists da, va. by cbn [privateObjects resultsObjects].
  - apply observe_represents. exists da. by cbn [privateObjects resultsObjects].
Qed.

(** Copying a log that owns its objects and destroying the copy gives
    back the heap as it was: the destructor deletes every object the copy
    constructor allocated, and nothing else. *)
Theorem copy_then_destroy (h : Heap) (a : ptr) :
  owns h a ->
  exists b h1,
    copySyncLog a h = Some (b, h1)
    /\ privateObjects h !! b = None
    /\ destroySyncLog b h1 = Some (tt, h).
Proof.
  intros (d & v & Hd & Hnd & Hrep)%owns_represents.
  destruct h as [m privs]. cbn [privateObjects resultsObjects] in *.
  destruct (copyPrivate_spec m privs d v Hrep) as (d' & m' & E & Hsub & Hnd' & Hdead & Hrep').
  pose proof (copyPrivate_dom _ _ _ _ E) as Hdom. cbn [resultsObjects] in Hdom.
  set (b := fresh (dom privs)).
  assert (privs !! b = None) as Hb by apply not_elem_of_dom, is_fresh.
  exists b, (mkHeap m' (<[b := d']> privs)). split.
  { unfold copySyncLog, bind, readPrivate, newPrivate. cbn [privateObjects].
    by rewrite Hd, E. }
  split; [done|].
  destruct (destroySyncLog_spec m' (<[b := d']> privs) b d' v (lookup_insert_eq _ _ _)
              Hnd' Hrep') as (m2 & E2 & Hframe & Hfreed).
  rewrite E2, delete_insert_id by done.
  assert (m2 = m) as ->; [|done].
  apply map_eq. intros p.
  destruct (decide (p ∈ footprint d')) as [Hin | Hout].
  - by rewrite Hfreed, Hdead.
  - rewrite Hframe by done.
    destruct (m !! p) as [r|] eqn:Hp; [by eapply lookup_weaken|].
    destruct (m' !! p) as [r|] eqn:Hp'; [|done].
    destruct (Hdom p) as [[x Hx] | Hin]; [by eexists | congruence | done].
Qed.

End PointerLeaks.

(** *** Results passed by reference

    [addResults] takes [const SyncResults &aResults]: each use of
    [aResults] reads the caller's object at that point of the call. *)

Section PointerByReference.
Context {RC : ResultsContract}.

Notation "'let*' x := c 'in' k" := (bind c (fun x => k))
  (at level 10, x name, c at level 100, k at level 200).

Implicit Types (m : gmap ptr SyncResults) (privs : gmap ptr SyncLogPrivate).
Implicit Types (d : SyncLogPrivate) (v : Value.SyncLogPrivate).

(** [updateLastSuccessfulResults], reading [aResults] in
    [isSyncSuccessful], in [operator<] and in the copy. *)
Definition updateLastSuccessfulResultsRef (this aResults : ptr) : Op unit :=
  let* d := readPrivate this in
  let* r := readResults aResults in
  let* replace :=
    if Value.isSyncSuccessful r
    then match iLastSuccessfulResults d with
         | None => ret true
         | Some p =>
             let* best := readResults p in
             let* r := readResults aResults in
             ret (lessThan best r)
         end
    else ret false in
  if replace : bool
  then let* _ := deleteResults (iLastSuccessfulResults d) in
       let* r := readResults aResults in
       let* p := newResults r in
       writePrivate this (mkPrivate (iProfileName d) (iResults d) (Some p))
  else ret tt.

(** [addResults], reading [aResults] in the copy that is appended, after
    the oldest entry was deleted. *)
Definition addResultsRef (this aResults : ptr) : Op unit :=
  let* d := readPrivate this in
  let* _ :=
    if (Value.MAXLOGENTRIES <=? length (iResults d))%nat
    then match iResults d with
         | first :: rest =>
             let* _ := writePrivate this
                         (mkPrivate (iProfileName d) rest (iLastSuccessfulResults d)) in
             deleteResults (Some first)
         | [] => undefined
         end
    else ret tt in
  let* r := readResults aResults in
  let* p := newResults r in
  let* d := readPrivate this in
  let* _ := writePrivate this
              (mkPrivate (iProfileName d) (iResults d ++ [p]) (iLastSuccessfulResults d)) in
  updateLastSuccessfulResultsRef this aResults.

Definition appendResultsRef (this aResults : ptr) : Op unit :=
  let* r := readResults aResults in
  let* p := newResults r in
  let* d := readPrivate this in
  writePrivate this
    (mkPrivate (iProfileName d) (iResults d ++ [p]) (iLastSuccessfulResults d)).

Lemma addResultsRef_steps this a h :
  addResultsRef this a h
  = (let* _ := evictOldest this in
     let* _ := appendResultsRef this a in
     updateLastSuccessfulResultsRef this a) h.
Proof.
  unfold addResultsRef, evictOldest, appendResultsRef, bind.
  destruct (readPrivate this h) as [[d h1]|]; [|done].
  lazymatch goal with
  | |- match ?c with _ => _ end = _ => destruct c as [[[] h2]|]; [|done]
  end.
  destruct (readResults a h2) as [[r h3]|]; [|done].
  simpl. destruct (readPrivate this _) as [[d3 h4]|]; [|done].
  by destruct (writePrivate this _ h4) as [[[] h5]|].
Qed.

Lemma appendResultsRef_eq m privs this a r :
  m !! a = Some r ->
  appendResultsRef this a (mkHeap m privs) = appendResults this r (mkHeap m privs).
Proof.
  intros Ha. unfold appendResultsRef, appendResults. unfold bind at 1.
  unfold readResults. cbn [resultsObjects]. by rewrite Ha.
Qed.

Lemma updateLastSuccessfulResultsRef_eq m privs this d v a r :
  privs !! this = Some d -> represents m d v ->
  m !! a = Some r -> a ∉ footprint d ->
  updateLastSuccessfulResultsRef this a (mkHeap m privs)
  = updateLastSuccessfulResults this r (mkHeap m privs).
Proof.
  intros Hd (_ & _ & Hbest) Ha Hout.
  unfold footprint in Hout. apply not_elem_of_app in Hout as [_ Hout].
  unfold updateLastSuccessfulResultsRef, updateLastSuccessfulResults,
    bind, readPrivate, readResults, ret.
  cbn [privateObjects resultsObjects]. rewrite Hd.
  cbn [privateObjects resultsObjects]. rewrite Ha.
  destruct (Value.isSyncSuccessful r); [|done].
  destruct Hbest as [pb vb Hpb|]; cbn [option_list] in Hout.
  - assert (a <> pb) as Hne by (intros ->; apply Hout; by left).
    cbn [privateObjects resultsObjects]. rewrite Hpb.
    cbn [privateObjects resultsObjects]. rewrite Ha.
    destruct (lessThan vb r); [|done].
    unfold deleteResults. cbn [resultsObjects]. rewrite Hpb.
    cbn [resultsObjects]. by rewrite lookup_delete_ne, Ha by done.
  - unfold deleteResults. cbn [resultsObjects]. by rewrite Ha.
Qed.

(** A live object outside a log stays live, unchanged and outside the
    log through an operation on the log. *)
Lemma evolves_outside m d m' d' a r :
  evolves m d m' d' -> m !! a = Some r -> a ∉ footprint d ->
  m' !! a = Some r /\ a ∉ footprint d'.
Proof.
  intros [Hgrow Hframe] Hlive Hnot. split.
  - rewrite Hframe; [done | done | by eexists].
  - intros Hin. destruct (Hgrow _ Hin); [done | congruence].
Qed.

Lemma addResultsRef_value m privs this d v a r :
  privs !! this = Some d -> NoDup (footprint d) -> represents m d v ->
  m !! a = Some r -> a ∉ footprint d ->
  addResultsRef this a (mkHeap m privs) = addResults this r (mkHeap m privs).
Proof.
  intros Hd Hnd Hrep Ha Hout.
  pose proof (fun m1 d1 m2 d2 (Hlive : m1 !! a = Some r) (Hnot : a ∉ footprint d1)
                  (Hev : evolves m1 d1 m2 d2) =>
                evolves_outside m1 d1 m2 d2 a r Hev Hlive Hnot) as Hkeep.
  rewrite addResultsRef_steps, addResults_steps. unfold bind.
  destruct (evictOldest_actsAs this m privs d v Hd Hnd Hrep)
    as (m1 & d1 & E1 & Hnd1 & Hrep1 & Hev1).
  rewrite E1. destruct (Hkeep _ _ _ _ Ha Hout Hev1) as [Ha1 Hout1].
  rewrite (appendResultsRef_eq _ _ _ _ r Ha1).
  pose proof (fun v1 => appendResults_actsAs this r m1 (<[this := d1]> privs) d1 v1
                          (lookup_insert_eq _ _ _) Hnd1) as Happend.
  destruct (Happend _ Hrep1) as (m2 & d2 & E2 & Hnd2 & Hrep2 & Hev2).
  rewrite E2. destruct (Hkeep _ _ _ _ Ha1 Hout1 Hev2) as [Ha2 Hout2].
  eapply updateLastSuccessfulResultsRef_eq;
    [apply lookup_insert_eq | exact Hrep2 | done | done].
Qed.

(** On a log that owns its objects, [addResults] with a reference to a
    live object outside the log acts on the log as [Value.addResults]
    with the value of that object, and keeps to the log's own objects. *)
Lemma addResultsRef_acts m privs this d v a r :
  privs !! this = Some d -> NoDup (footprint d) -> represents m d v ->
  m !! a = Some r -> a ∉ footprint d ->
  exists m' d',
    addResultsRef this a (mkHeap m privs) = Some (tt, mkHeap m' (<[this := d']> privs))
    /\ NoDup (footprint d')
    /\ represents m' d' (Value.addResults v r)
    /\ evolves m d m' d'.
Proof.
  intros Hd Hnd Hrep Ha Hout.
  rewrite (addResultsRef_value m privs this d v a r Hd Hnd Hrep Ha Hout).
  by apply addResults_actsAs.
Qed.

(** With results that live outside the log, as those of another log or
    of the caller, passing them by reference is passing their value:
    [addResults] does what it does with a copy of them. *)
Theorem addResultsRef_outside (h : Heap) (this aResults : ptr) (r : SyncResults) :
  owns h this ->
  pointsTo h aResults r ->
  (forall d, privateObjects h !! this = Some d -> aResults ∉ footprint d) ->
  addResultsRef this aResults h = addResults this r h.
Proof.
  intros (d & v & Hd & Hnd & Hrep)%owns_represents Ha Hout.
  destruct h as [m privs]. unfold pointsTo in Ha. cbn [privateObjects resultsObjects] in *.
  exact (addResultsRef_value m privs this d v aResults r Hd Hnd Hrep Ha (Hout d Hd)).
Qed.

(** With a reference to the oldest entry of a full log itself, the entry
    is deleted before it is copied: the call reads a dead object. *)
Theorem addResultsRef_own_oldest (h : Heap) (this : ptr) (d : SyncLogPrivate)
        (first : ptr) (rest : list ptr) :
  owns h this ->
  privateObjects h !! this = Some d ->
  iResults d = first :: rest ->
  (Value.MAXLOGENTRIES <= length (iResults d))%nat ->
  addResultsRef this first h = None.
Proof.
  intros (d' & Hd' & Hnd & Hlive) Hd Hfirst Hfull.
  rewrite Hd in Hd'. injection Hd' as <-.
  assert (is_Some (resultsObjects h !! first)) as [r Hr].
  { apply (proj1 (Forall_forall _ _) Hlive). unfold footprint. rewrite Hfirst. by left. }
  unfold addResultsRef. unfold bind at 1. unfold readPrivate. rewrite Hd.
  apply Nat.leb_le in Hfull. rewrite Hfull, Hfirst.
  unfold bind, writePrivate, deleteResults, readResults.
  cbn [privateObjects resultsObjects]. rewrite Hd.
  cbn [privateObjects resultsObjects]. rewrite Hr.
  cbn [privateObjects resultsObjects]. by rewrite lookup_delete_eq.
Qed.

(** [addResults] with a reference to a live object outside the log, on a
    log that owns its objects: every read of the reference finds the
    object, the call is defined, the log owns its objects afterwards and
    holds what [Value.addResults] makes of what it held and of the value
    of the object, and the object is still live, unchanged and outside
    the log. *)
Theorem addResultsRef_simulates (h : Heap) (this aResults : ptr) (r : SyncResults) :
  owns h this ->
  pointsTo h aResults r ->
  (forall d, privateObjects h !! this = Some d -> aResults ∉ footprint d) ->
  exists v h',
    observe h this = Some v
    /\ addResultsRef this aResults h = Some (tt, h')
    /\ owns h' this
    /\ observe h' this = Some (Value.addResults v r)
    /\ pointsTo h' aResults r
    /\ (forall d', privateObjects h' !! this = Some d' -> aResults ∉ footprint d').
Proof.
  intros (d & v & Hd & Hnd & Hrep)%owns_represents Ha Hout.
  destruct h as [m privs]. unfold pointsTo in *. cbn [privateObjects resultsObjects] in *.
  specialize (Hout d Hd).
  destruct (addResultsRef_acts m privs this d v aResults r Hd Hnd Hrep Ha Hout)
    as (m' & d' & E & Hnd' & Hrep' & Hev).
  destruct (evolves_outside _ _ _ _ _ _ Hev Ha Hout) as [Ha' Hout'].
  exists v, (mkHeap m' (<[this := d']> privs)).
  split; [apply observe_represents; eauto|]. split; [done|].
  cbn [privateObjects resultsObjects]. split; [|split; [|split; [done|]]].
  - apply owns_represents. exists d', (Value.addResults v r).
    cbn [privateObjects resultsObjects]. by rewrite lookup_insert_eq.
  - apply observe_represents. exists d'.
    cbn [privateObjects resultsObjects]. by rewrite lookup_insert_eq.
  - intros d2. rewrite lookup_insert_eq. by intros [= <-].
Qed.

(** A caller recording its own results objects one after the other. *)
Fixpoint recordAllRef (this : ptr) (refs : list ptr) : Op unit :=
  match refs with
  | [] => ret tt
  | aResults :: rest =>
      let* _ := addResultsRef this aResults in
      recordAllRef this rest
  end.

Lemma recordAllRef_acts this refs : forall rs m privs d v,
  privs !! this = Some d -> NoDup (footprint d) -> represents m d v ->
  Forall2 (fun a r => m !! a = Some r) refs rs ->
  Forall (fun a => a ∉ footprint d) refs ->
  exists m' d',
    recordAllRef this refs (mkHeap m privs) = Some (tt, mkHeap m' (<[this := d']> privs))
    /\ NoDup (footprint d')
    /\ represents m' d' (Value.recordAll v rs)
    /\ evolves m d m' d'.
Proof.
  induction refs as [|a refs IH]; intros rs m privs d v Hd Hnd Hrep Hrs Hout.
  - apply Forall2_nil_inv_l in Hrs as ->. exists m, d.
    split; [by rewrite insert_id|]. do 2 (split; [done|]). apply evolves_refl.
  - apply Forall2_cons_inv_l in Hrs as (r & rs' & Ha & Hrs & ->).
    apply Forall_cons in Hout as [Ha' Hout].
    destruct (addResultsRef_acts m privs this d v a r Hd Hnd Hrep Ha Ha')
      as (m1 & d1 & E1 & Hnd1 & Hrep1 & Hev1).
    assert (Forall2 (fun a r => m1 !! a = Some r) refs rs'
            /\ Forall (fun a => a ∉ footprint d1) refs) as [Hrs1 Hout1].
    { clear IH E1. induction Hrs as [|x y xs ys Hx _ IHrs]; [by split|].
      apply Forall_cons in Hout as [Hx' Hout].
      destruct (evolves_outside _ _ _ _ _ _ Hev1 Hx Hx') as [Hx1 Hx1'].
      destruct (IHrs Hout) as [H1 H2]. split; by constructor. }
    destruct (IH rs' m1 (<[this := d1]> privs) d1 (Value.addResults v r))
      as (m2 & d2 & E2 & Hnd2 & Hrep2 & Hev2);
      [by rewrite lookup_insert_eq | done | done | done | done |].
    exists m2, d2. cbn [recordAllRef]. unfold bind. rewrite E1, E2, insert_insert_eq.
    do 3 (split; [done|]). by eapply evolves_trans.
Qed.

(** Any sequence of [addResults] calls, each with a reference to a live
    object of the caller (outside the log), on a log that owns its
    objects: every call is defined, the log ends owning its objects and
    holding what [Value.recordAll] makes of the values of the objects,
    and the caller's objects are as they were. *)
Theorem recordAllRef_simulates (h : Heap) (this : ptr) (refs : list ptr)
        (rs : list SyncResults) :
  owns h this ->
  Forall2 (pointsTo h) refs rs ->
  (forall d, privateObjects h !! this = Some d -> Forall (fun a => a ∉ footprint d) refs) ->
  exists v h',
    observe h this = Some v
    /\ recordAllRef this refs h = Some (tt, h')
    /\ owns h' this
    /\ observe h' this = Some (Value.recordAll v rs)
    /\ Forall2 (pointsTo h') refs rs.
Proof.
  intros (d & v & Hd & Hnd & Hrep)%owns_represents Hrs Hout.
  destruct h as [m privs]. unfold pointsTo in *. cbn [privateObjects resultsObjects] in *.
  specialize (Hout d Hd).
  destruct (recordAllRef_acts this refs rs m privs d v Hd Hnd Hrep Hrs Hout)
    as (m' & d' & E & Hnd' & Hrep' & Hev).
  exists v, (mkHeap m' (<[this := d']> privs)).
  split; [apply observe_represents; eauto|]. split; [done|].
  cbn [privateObjects resultsObjects]. split; [|split].
  - apply owns_represents. exists d', (Value.recordAll v rs).
    cbn [privateObjects resultsObjects]. by rewrite lookup_insert_eq.
  - apply observe_represents. exists d'.
    cbn [privateObjects resultsObjects]. by rewrite lookup_insert_eq.
  - clear E Hrep' Hnd'. induction Hrs as [|x y xs ys Hx _ IHrs]; [constructor|].
    apply Forall_cons in Hout as [Hx' Hout].
    constructor; [|by apply IHrs].
    by destruct (evolves_outside _ _ _ _ _ _ Hev Hx Hx').
Qed.

(** A caller constructing an empty log and recording its own results
    objects on it. *)
Definition recordOnNewLog (name : QString) (refs : list ptr) : Op ptr :=
  let* log := newSyncLog name in
  let* _ := recordAllRef log refs in
  ret log.

Lemma recordOnNewLog_spec m privs name refs rs :
  Forall2 (fun a r => m !! a = Some r) refs rs ->
  exists m' d',
    recordOnNewLog name refs (mkHeap m privs)
    = Some (fresh (dom privs), mkHeap m' (<[fresh (dom privs) := d']> privs))
    /\ privs !! fresh (dom privs) = None
    /\ NoDup (footprint d')
    /\ represents m' d' (Value.recordAll (Value.newSyncLog name) rs)
    /\ Forall2 (fun a r => m' !! a = Some r) refs rs.
Proof.
  intros Hrs. destruct (newPrivate_spec m privs name) as (Hb & E & Hrep).
  set (b := fresh (dom privs)) in *. set (d0 := mkPrivate name [] None) in *.
  assert (Forall (fun a => a ∉ footprint d0) refs) as Hout.
  { apply Forall_forall. intros a _ Hin. by apply elem_of_nil in Hin. }
  destruct (recordAllRef_acts b refs rs m (<[b := d0]> privs) d0 (Value.newSyncLog name))
    as (m' & d' & E2 & Hnd' & Hrep' & Hev);
    [apply lookup_insert_eq | constructor | done | done | done |].
  rewrite insert_insert_eq in E2.
  exists m', d'. split.
  { unfold recordOnNewLog, newSyncLog, bind. fold d0. rewrite E. by rewrite E2. }
  do 3 (split; [done|]).
  clear E E2 Hrep Hrep' Hnd'. induction Hrs as [|x y xs ys Hx _ IHrs]; [constructor|].
  apply Forall_cons in Hout as [Hx' Hout]. constructor; [|by apply IHrs].
  by destruct (evolves_outside _ _ _ _ _ _ Hev Hx Hx').
Qed.

(** A log is constructed empty and [addResults] is called any number of
    times, each time with a reference to an object that was live before
    the log was constructed: every call is defined, the log owns its
    objects and holds the five newest of the recorded values, oldest
    first ([min (length rs) 5] of them), the last of them last, and the
    caller's objects are as they were. *)
Theorem recordAllRef_on_new_log (h : Heap) (name : QString) (refs : list ptr)
        (rs : list SyncResults) :
  Forall2 (pointsTo h) refs rs ->
  exists log h' v,
    recordOnNewLog name refs h = Some (log, h')
    /\ privateObjects h !! log = None
    /\ owns h' log
    /\ observe h' log = Some v
    /\ v = Value.recordAll (Value.newSyncLog name) rs
    /\ Value.iResults v = drop (length rs - 5) rs
    /\ length (Value.iResults v) = Nat.min (length rs) 5
    /\ Value.lastResults v = last rs
    /\ Forall2 (pointsTo h') refs rs.
Proof.
  intros Hrs. destruct h as [m privs]. unfold pointsTo in *.
  cbn [privateObjects resultsObjects] in *.
  destruct (recordOnNewLog_spec m privs name refs rs Hrs)
    as (m' & d' & E & Hb & Hnd & Hrep & Hrs').
  set (b := fresh (dom privs)) in *.
  exists b, (mkHeap m' (<[b := d']> privs)), (Value.recordAll (Value.newSyncLog name) rs).
  pose proof (Value.recordAll_results name rs) as Hwin.
  split; [done|]. split; [done|]. cbn [privateObjects resultsObjects]. split; [|split].
  - apply owns_represents. exists d', (Value.recordAll (Value.newSyncLog name) rs).
    cbn [privateObjects resultsObjects]. by rewrite lookup_insert_eq.
  - apply observe_represents. exists d'.
    cbn [privateObjects resultsObjects]. by rewrite lookup_insert_eq.
  - split; [done|]. split; [done|]. split; [rewrite Hwin, length_drop; lia|].
    split; [|done]. clear.
    destruct rs as [|r rs _] using rev_ind; [done|].
    rewrite Value.recordAll_snoc, last_snoc.
    eapply Value.lastResults_snoc, Value.addResults_results.
Qed.

Section ByReferenceOrder.

Hypothesis lessThan_trans :
  forall a b c, lessThan a b = true -> lessThan b c = true -> lessThan a c = true.
Hypothesis lessThan_total :
  forall a b, lessThan a b = true \/ a = b \/ lessThan b a = true.

(** With [operator<] a total order: after any such sequence of calls on
    a log constructed empty, the last successful results of the log are
    the maximum of the successful recorded values, and there are none
    when no recorded value was successful. *)
Theorem recordAllRef_best_maximum (h : Heap) (name : QString) (refs : list ptr)
        (rs : list SyncResults) :
  Forall2 (pointsTo h) refs rs ->
  exists log h' v,
    recordOnNewLog name refs h = Some (log, h')
    /\ observe h' log = Some v
    /\ match Value.lastSuccessfulResults v with
       | Some best => Value.isMaximum best (List.filter Value.isSyncSuccessful rs)
       | None => List.filter Value.isSyncSuccessful rs = []
       end.
Proof.
  intros Hrs. destruct h as [m privs]. unfold pointsTo in *.
  cbn [privateObjects resultsObjects] in *.
  destruct (recordOnNewLog_spec m privs name refs rs Hrs)
    as (m' & d' & E & Hb & Hnd & Hrep & Hrs').
  set (b := fresh (dom privs)) in *.
  exists b, (mkHeap m' (<[b := d']> privs)), (Value.recordAll (Value.newSyncLog name) rs).
  split; [done|]. split.
  - apply observe_represents. exists d'.
    cbn [privateObjects resultsObjects]. by rewrite lookup_insert_eq.
  - by apply Value.recordAll_best.
Qed.

End ByReferenceOrder.

(** *** Copies changed by reference *)

(** Changes made to a log after it was copied, the recorded results
    being an object the caller refers to. *)
Inductive MutationRef :=
| RecordRef (aResults : ptr)
| RenameRef (aProfileName : QString).

Definition mutateRef (log : ptr) (mu : MutationRef) : Op unit :=
  match mu with
  | RecordRef a => addResultsRef log a
  | RenameRef n => setProfileName log n
  end.

Fixpoint mutateBothRef (original copy : ptr) (ms : list (bool * MutationRef)) : Op unit :=
  match ms with
  | [] => ret tt
  | (onOriginal, mu) :: rest =>
      let* _ := mutateRef (if onOriginal then original else copy) mu in
      mutateBothRef original copy rest
  end.

(** The object [q] belongs to the caller: no log points to it. *)
Definition outside (h : Heap) (q : ptr) : Prop :=
  forall log d, privateObjects h !! log = Some d -> q ∉ footprint d.

(** The change [mu] refers, in [h], to a live object of the caller
    whose value makes it the change [mv]. *)
Definition refersTo (h : Heap) (mu : MutationRef) (mv : Mutation) : Prop :=
  match mu, mv with
  | RecordRef a, Record r => pointsTo h a r /\ outside h a
  | RenameRef n, Rename n' => n = n'
  | _, _ => False
  end.

Definition allReferTo (h : Heap) (ms : list (bool * MutationRef))
           (vs : list (bool * Mutation)) : Prop :=
  Forall2 (fun x y => fst x = fst y /\ refersTo h (snd x) (snd y)) ms vs.

(** The caller's objects are as they were after [h] became [h']. *)
Definition keepsCallers (h h' : Heap) : Prop :=
  forall q x, pointsTo h q x -> outside h q -> pointsTo h' q x /\ outside h' q.

Lemma allReferTo_keep h h' ms vs :
  keepsCallers h h' -> allReferTo h ms vs -> allReferTo h' ms vs.
Proof.
  intros Hkeep Hall. induction Hall as [|[w mu] [w' mv] ms vs [Hw Hmu] _ IH]; constructor;
    [|done].
  split; [done|]. cbn [snd] in *.
  destruct mu as [q|n], mv as [x|n']; cbn [refersTo] in *; try done.
  destruct Hmu as [Hq Hout]. by apply Hkeep.
Qed.

(** An operation on one of two separate logs leaves the other, and the
    caller's objects, as they were. *)
Lemma separate_step_callers h a b va vb op f :
  separate h a b va vb -> actsAs op b f ->
  exists h', op h = Some (tt, h') /\ separate h' a b va (f vb) /\ keepsCallers h h'.
Proof.
  intros (Hne & da & db & Ha & Hb & Hnda & Hndb & Hdisj & Hra & Hrb) Hop.
  destruct h as [m privs]. cbn [privateObjects resultsObjects] in *.
  destruct (Hop m privs db vb Hb Hndb Hrb) as (m' & db' & E & Hndb' & Hrb' & Hev).
  exists (mkHeap m' (<[b := db']> privs)). split; [done|]. split.
  - destruct Hev as [Hgrow Hframe]. split; [done|].
    exists da, db'. cbn [privateObjects resultsObjects].
    split; [by rewrite lookup_insert_ne|]. split; [apply lookup_insert_eq|].
    do 2 (split; [done|]). split; [|split; [|done]].
    + intros p Hp Hp'. destruct (Hgrow p Hp') as [Hold | Hdead]; [by eapply Hdisj|].
      destruct (represents_live m da va p Hra Hp) as [r Hr]. congruence.
    + apply represents_frame with (m := m); [|done].
      intros p Hp. apply Hframe; [by apply Hdisj|].
      exact (represents_live m da va p Hra Hp).
  - intros q x Hq Hout. unfold pointsTo, outside in *.
    cbn [privateObjects resultsObjects] in *.
    destruct (evolves_outside _ _ _ _ _ _ Hev Hq (Hout b db Hb)) as [Hq' Hout'].
    split; [done|]. intros log d.
    destruct (decide (log = b)) as [->|Hlog].
    + rewrite lookup_insert_eq. by intros [= <-].
    + rewrite lookup_insert_ne by done. apply Hout.
Qed.

(** With an object of the caller, a change by reference is the change
    with the value of the object. *)
Lemma mutateRef_value h a b va vb mu mv :
  separate h a b va vb -> refersTo h mu mv -> mutateRef b mu h = mutate b mv h.
Proof.
  intros (Hne & da & db & Ha & Hb & Hnda & Hndb & Hdisj & Hra & Hrb) Hmu.
  destruct mu as [q|n], mv as [x|n']; cbn [refersTo] in Hmu; try done.
  - destruct Hmu as [Hq Hout]. destruct h as [m privs].
    unfold pointsTo, outside in *. cbn [privateObjects resultsObjects mutateRef mutate] in *.
    exact (addResultsRef_value m privs b db vb q x Hb Hndb Hrb Hq (Hout b db Hb)).
  - by subst.
Qed.

Lemma mutateBothRef_spec a b ms : forall vs h va vb,
  separate h a b va vb -> allReferTo h ms vs ->
  exists h',
    mutateBothRef a b ms h = Some (tt, h')
    /\ separate h' a b (fold_left mutateValue (changesOf true vs) va)
                       (fold_left mutateValue (changesOf false vs) vb).
Proof.
  induction ms as [|[w mu] ms IH]; intros vs h va vb Hsep Hall.
  - apply Forall2_nil_inv_l in Hall as ->. by exists h.
  - apply Forall2_cons_inv_l in Hall as ([w' mv] & vs' & [Hw Hmu] & Hall & ->).
    cbn [fst snd] in *. subst w'. destruct w.
    + apply separate_sym in Hsep.
      pose proof (mutateRef_value h b a vb va mu mv Hsep Hmu) as Eq.
      destruct (separate_step_callers h b a vb va _ _ Hsep (mutate_actsAs a mv))
        as (h1 & E & Hsep1 & Hkeep).
      apply separate_sym in Hsep1.
      destruct (IH vs' h1 _ _ Hsep1 (allReferTo_keep _ _ _ _ Hkeep Hall))
        as (h' & E' & Hsep').
      exists h'. split; [|done]. cbn [mutateBothRef]. unfold bind. by rewrite Eq, E.
    + pose proof (mutateRef_value h a b va vb mu mv Hsep Hmu) as Eq.
      destruct (separate_step_callers h a b va vb _ _ Hsep (mutate_actsAs b mv))
        as (h1 & E & Hsep1 & Hkeep).
      destruct (IH vs' h1 _ _ Hsep1 (allReferTo_keep _ _ _ _ Hkeep Hall))
        as (h' & E' & Hsep').
      exists h'. split; [|done]. cbn [mutateBothRef]. unfold bind. by rewrite Eq, E.
Qed.

(** The copy constructor leaves the caller's objects as they were. *)
Lemma copySyncLog_callers h a :
  owns h a ->
  exists v b h1,
    observe h a = Some v /\ copySyncLog a h = Some (b, h1) /\ separate h1 a b v v
    /\ keepsCallers h h1.
Proof.
  intros (d & v & Hd & Hnd & Hrep)%owns_represents.
  destruct h as [m privs]. cbn [privateObjects resultsObjects] in *.
  destruct (copyPrivate_spec m privs d v Hrep) as (d' & m' & E & Hsub & Hnd' & Hdead & Hrep').
  set (b := fresh (dom privs)).
  assert (privs !! b = None) as Hb by apply not_elem_of_dom, is_fresh.
  exists v, b, (mkHeap m' (<[b := d']> privs)).
  split; [apply observe_represents; eauto|]. split.
  { unfold copySyncLog, bind, readPrivate, newPrivate. cbn [privateObjects].
    rewrite Hd, E. done. }
  split.
  - split; [congruence|]. exists d, d'. cbn [privateObjects resultsObjects].
    split; [rewrite lookup_insert_ne; [done | congruence]|].
    split; [apply lookup_insert_eq|]. do 2 (split; [done|]). split; [|split; [|done]].
    + intros p Hp Hp'. apply Hdead in Hp'.
      destruct (represents_live m d v p Hrep Hp) as [r Hr]. congruence.
    + apply represents_frame with (m := m); [|done].
      intros p Hp. destruct (represents_live m d v p Hrep Hp) as [r Hr].
      rewrite Hr. by eapply lookup_weaken.
  - intros q x Hq Hout. unfold pointsTo, outside in *.
    cbn [privateObjects resultsObjects] in *.
    split; [by eapply lookup_weaken|]. intros log dl.
    destruct (decide (log = b)) as [->|Hlog].
    + rewrite lookup_insert_eq. intros [= <-] Hin. apply Hdead in Hin. congruence.
    + rewrite lookup_insert_ne by done. apply Hout.
Qed.

(** A copy of a log that owns its objects holds what the original holds,
    and whatever sequence of [setProfileName] calls and of [addResults]
    calls with references to live objects of the caller (objects no log
    points to) is then made on the two logs, every call is defined and
    each log ends as its own calls make it. *)
Theorem copy_is_deep_by_reference (h : Heap) (a : ptr)
        (ms : list (bool * MutationRef)) (vs : list (bool * Mutation)) :
  owns h a ->
  allReferTo h ms vs ->
  exists v b h1 h2,
    observe h a = Some v
    /\ copySyncLog a h = Some (b, h1)
    /\ observe h1 a = Some v
    /\ observe h1 b = Some v
    /\ mutateBothRef a b ms h1 = Some (tt, h2)
    /\ observe h2 a = Some (fold_left mutateValue (changesOf true vs) v)
    /\ observe h2 b = Some (fold_left mutateValue (changesOf false vs) v).
Proof.
  intros Ha Hall.
  destruct (copySyncLog_callers h a Ha) as (v & b & h1 & Hv & E & Hsep & Hkeep).
  destruct (mutateBothRef_spec a b ms vs h1 v v Hsep (allReferTo_keep _ _ _ _ Hkeep Hall))
    as (h2 & E2 & Hsep2).
  exists v, b, h1, h2. do 2 (split; [done|]).
  destruct (separate_observe _ _ _ _ _ Hsep) as [Hoa Hob]. do 3 (split; [done|]).
  by apply separate_observe in Hsep2.
Qed.

End PointerByReference.

End Owned.

(** ** A reference instance of the contract

    Results made of a sync time and the two codes, ordered by time, then by
    major code, then by minor code, and written to the document as three
    attributes of a [syncresults] element. *)
Module Reference.

Record Results := mkResults {
  rTime : QDateTime;
  rMajor : Z;
  rMinor : Z
}.

Definition compareTime (a b : QDateTime) : comparison :=
  match a, b with
  | None, None => Eq
  | None, Some _ => Lt
  | Some _, None => Gt
  | Some x, Some y => x ?= y
  end.

Definition less (a b : Results) : bool :=
  match compareTime (rTime a) (rTime b) with
  | Lt => true
  | Gt => false
  | Eq =>
      match rMajor a ?= rMajor b with
      | Lt => true
      | Gt => false
      | Eq => rMinor a <? rMinor b
      end
  end.

Definition numberToString (z : Z) : QString := NilEmpty.string_of_int (Z.to_int z).

Definition stringToNumber (s : QString) : Z :=
  match NilEmpty.int_of_string s with
  | Some d => Z.of_int d
  | None => 0
  end.

Definition write (r : Results) : QDomNode :=
  let e := createElement "syncresults" in
  let e := setAttribute e "majorcode" (numberToString (rMajor r)) in
  let e := setAttribute e "minorcode" (numberToString (rMinor r)) in
  match rTime r with
  | Some t => setAttribute e "time" (numberToString t)
  | None => e
  end.

Definition read (e : QDomNode) : Results :=
  match e with
  | DomElement _ a _ =>
      mkResults (stringToNumber <$> a !! "time")
                (stringToNumber (attribute e "majorcode"))
                (stringToNumber (attribute e "minorcode"))
  | DomText _ => mkResults None 0 0
  end.

#[export] Instance contract : ResultsContract := {|
  SyncResults := Results;
  majorCode := rMajor;
  minorCode := rMinor;
  syncTime := rTime;
  lessThan := less;
  resultsToXml := write;
  resultsFromXml := read;
  SYNC_RESULT_SUCCESS := 0;
  NO_ERROR := 0;
  TAG_SYNC_RESULTS := "syncresults";
  TAG_SYNC_LOG := "synclog";
  ATTR_NAME := "name"
|}.

Ltac compare_cases :=
  repeat match goal with
    | H : context [?x ?= ?y] |- _ => destruct (Z.compare_spec x y); subst
    | |- context [?x ?= ?y] => destruct (Z.compare_spec x y); subst
    end;
  rewrite ?Z.ltb_lt, ?Z.ltb_ge in *; try discriminate; try lia.

Lemma less_irrefl a : less a a = false.
Proof.
  destruct a as [[t|] ma mi]; unfold less; simpl;
    rewrite ?Z.compare_refl; apply Z.ltb_irrefl.
Qed.

Lemma less_trans a b c : less a b = true -> less b c = true -> less a c = true.
Proof.
  destruct a as [[ta|] maa mia], b as [[tb|] mab mib], c as [[tc|] mac mic];
    unfold less; simpl; intros Hab Hbc; try discriminate; try done; compare_cases.
Qed.

Lemma less_total a b : less a b = true \/ a = b \/ less b a = true.
Proof.
  destruct a as [[ta|] maa mia], b as [[tb|] mab mib];
    unfold less; simpl; auto; compare_cases; auto;
    destruct (Z.lt_total mia mib) as [? | [-> | ?]];
    rewrite ?Z.ltb_lt; auto.
Qed.

Lemma stringToNumber_numberToString z : stringToNumber (numberToString z) = z.
Proof.
  unfold stringToNumber, numberToString.
  by rewrite NilEmpty.isi, DecimalZ.of_to.
Qed.

Lemma write_tagged r : isElementTagged "syncresults" (write r) = true.
Proof. unfold write. by destruct (rTime r). Qed.

Lemma read_write r : read (write r) = r.
Proof.
  destruct r as [[t|] ma mi]; unfold write, read, attribute, createElement, setAttribute;
    simpl; simplify_map_eq; simpl; by rewrite !stringToNumber_numberToString.
Qed.

(** Sample results: [ok t] is a successful sync at time [t], [failed t] a
    failed one (major code 1). *)
Definition ok (t : Z) : Results := mkResults (Some t) 0 0.
Definition failed (t : Z) : Results := mkResults (Some t) 1 0.

End Reference.

(** ** The model at work on the reference instance *)

Section Scenarios.
Import Value Reference.

(** Six successful results with increasing times: the first is evicted and
    the last is the best. *)
Example six_successes :
  recordAll (newSyncLog "p") [ok 1; ok 2; ok 3; ok 4; ok 5; ok 6]
  = mkPrivate "p" [ok 2; ok 3; ok 4; ok 5; ok 6] (Some (ok 6)).
Proof. reflexivity. Qed.

(** One successful result, then five failed ones: the successful one is
    evicted, stays the best, and gets a node of its own in the document. *)
Example success_then_failures :
  recordAll (newSyncLog "p") [ok 1; failed 2; failed 3; failed 4; failed 5; failed 6]
  = mkPrivate "p" [failed 2; failed 3; failed 4; failed 5; failed 6] (Some (ok 1))
  /\ childNodes (toXml (recordAll (newSyncLog "p")
                          [ok 1; failed 2; failed 3; failed 4; failed 5; failed 6]))
     = map write [ok 1; failed 2; failed 3; failed 4; failed 5; failed 6].
Proof. split; vm_compute; reflexivity. Qed.

(** A log whose results were not recorded in chronological order: the
    best, [ok 10], was evicted but is not less than the oldest retained
    entry, so it is not written. *)
Definition unorderedLog : SyncLogPrivate :=
  recordAll (newSyncLog "p") [ok 10; failed 5; ok 1; failed 6; failed 7; failed 8].

(** C4 fails as stated: the log read back from the document of
    [unorderedLog] has other last successful results than [unorderedLog],
    and its document has one node more, so neither the log nor the
    document comes back. *)
Lemma roundtrip_counterexample :
  lastSuccessfulResults unorderedLog = Some (ok 10)
  /\ lastSuccessfulResults (fromXml (toXml unorderedLog)) = Some (ok 1)
  /\ childNodes (toXml unorderedLog)
     = map write [failed 5; ok 1; failed 6; failed 7; failed 8]
  /\ childNodes (toXml (fromXml (toXml unorderedLog)))
     = map write [ok 1; failed 5; ok 1; failed 6; failed 7; failed 8]
  /\ lastSuccessfulResults (fromXml (toXml unorderedLog))
     <> lastSuccessfulResults unorderedLog
  /\ toXml (fromXml (toXml unorderedLog)) <> toXml unorderedLog.
Proof.
  rewrite fromXml_hydrateSpec.
  do 4 (split; [vm_compute; reflexivity|]). split.
  - vm_compute. discriminate.
  - intros E. apply (f_equal (fun doc => length (childNodes doc))) in E.
    vm_compute in E. discriminate.
Qed.

Lemma best_successful_is_maximum_witness :
  match lastSuccessfulResults
          (recordAll (newSyncLog "p") [ok 3; failed 9; ok 7; mkResults None 0 0; ok 5]) with
  | Some m => isMaximum m (List.filter isSyncSuccessful
                             [ok 3; failed 9; ok 7; mkResults None 0 0; ok 5])
  | None => List.filter isSyncSuccessful
              [ok 3; failed 9; ok 7; mkResults None 0 0; ok 5] = []
  end.
Proof.
  exact (best_successful_is_maximum less_trans less_total "p"
           [ok 3; failed 9; ok 7; mkResults None 0 0; ok 5]).
Defined.

Lemma roundtrip_chronological_witness :
  chronological [ok 1; failed 2; failed 3; failed 4; failed 5; failed 6; ok 7]
  /\ fromXml (toXml (recordAll (newSyncLog "p")
                       [ok 1; failed 2; failed 3; failed 4; failed 5; failed 6; ok 7]))
     = recordAll (newSyncLog "p")
                 [ok 1; failed 2; failed 3; failed 4; failed 5; failed 6; ok 7]
  /\ toXml (fromXml (toXml (recordAll (newSyncLog "p")
                       [ok 1; failed 2; failed 3; failed 4; failed 5; failed 6; ok 7])))
     = toXml (recordAll (newSyncLog "p")
                 [ok 1; failed 2; failed 3; failed 4; failed 5; failed 6; ok 7]).
Proof.
  assert (chronological [ok 1; failed 2; failed 3; failed 4; failed 5; failed 6; ok 7]) as H.
  { unfold chronological.
    repeat first [apply Sorted_nil | apply HdRel_nil | apply Sorted_cons | apply HdRel_cons];
      reflexivity. }
  split; [exact H|].
  exact (roundtrip_chronological less_trans less_total less_irrefl write_tagged read_write
           "p" _ H).
Defined.

(** A heap with one log, named "p", that retains two results and whose
    last successful results are a third object. *)
Definition sampleHeap : Owned.Heap :=
  Owned.mkHeap {[ 1%positive := ok 1; 2%positive := failed 2; 3%positive := ok 1 ]}
               {[ 1%positive := Owned.mkPrivate "p" [1%positive; 2%positive] (Some 3%positive) ]}.

Lemma sampleHeap_owned : Owned.owns sampleHeap 1%positive.
Proof.
  exists (Owned.mkPrivate "p" [1%positive; 2%positive] (Some 3%positive)).
  split; [reflexivity|]. split.
  - unfold Owned.footprint. simpl. compute_done.
  - unfold Owned.footprint. simpl. repeat (apply Forall_cons; split; [by eexists|]).
    apply Forall_nil_2.
Qed.

(** Running the pointer model: a copy is made and a result recorded on it. *)
Example copy_then_record :
  (h ← snd <$> Owned.copySyncLog 1%positive sampleHeap;
   h ← snd <$> Owned.addResults 2%positive (ok 9) h;
   Some (Owned.observe h 1%positive, Owned.observe h 2%positive))
  = Some (Some (mkPrivate "p" [ok 1; failed 2] (Some (ok 1))),
          Some (mkPrivate "p" [ok 1; failed 2; ok 9] (Some (ok 9)))).
Proof. vm_compute. reflexivity. Qed.

Lemma addResults_simulates_witness :
  Owned.owns sampleHeap 1%positive
  /\ exists v h',
      Owned.observe sampleHeap 1%positive = Some v
      /\ Owned.addResults 1%positive (ok 9) sampleHeap = Some (tt, h')
      /\ Owned.owns h' 1%positive
      /\ Owned.observe h' 1%positive = Some (addResults v (ok 9)).
Proof.
  split; [exact sampleHeap_owned|].
  exact (Owned.addResults_simulates sampleHeap 1%positive (ok 9) sampleHeap_owned).
Defined.


Lemma destroy_leaves_other_witness :
  exists v b h1,
    Owned.copySyncLog 1%positive sampleHeap = Some (b, h1)
    /\ Owned.separate h1 1%positive b v v
    /\ exists db h2,
        Owned.privateObjects h1 !! b = Some db
        /\ Owned.destroySyncLog b h1 = Some (tt, h2)
        /\ Owned.privateObjects h2 = delete b (Owned.privateObjects h1)
        /\ Owned.privateObjects h2 !! b = None
        /\ (forall p, p ∈ Owned.footprint db -> Owned.resultsObjects h2 !! p = None)
        /\ (forall p, p ∉ Owned.footprint db ->
                      Owned.resultsObjects h2 !! p = Owned.resultsObjects h1 !! p)
        /\ Owned.owns h2 1%positive
        /\ Owned.observe h2 1%positive = Some v.
Proof.
  destruct (Owned.copySyncLog_spec sampleHeap 1%positive sampleHeap_owned)
    as (v & b & h1 & _ & E & Hsep).
  exists v, b, h1. split; [exact E|]. split; [exact Hsep|].
  exact (Owned.destroy_leaves_other h1 1%positive b v v Hsep).
Defined.

Lemma copy_is_deep_witness :
  Owned.owns sampleHeap 1%positive
  /\ exists v b h1,
      Owned.observe sampleHeap 1%positive = Some v
      /\ Owned.copySyncLog 1%positive sampleHeap = Some (b, h1)
      /\ Owned.observe h1 1%positive = Some v
      /\ Owned.observe h1 b = Some v
      /\ forall ms, exists h2,
           Owned.mutateBoth 1%positive b ms h1 = Some (tt, h2)
           /\ Owned.observe h2 1%positive
              = Some (fold_left Owned.mutateValue (Owned.changesOf true ms) v)
           /\ Owned.observe h2 b
              = Some (fold_left Owned.mutateValue (Owned.changesOf false ms) v).
Proof.
  split; [exact sampleHeap_owned|].
  exact (Owned.copy_is_deep sampleHeap 1%positive sampleHeap_owned).
Defined.

Lemma toXml_reads_only_witness :
  Owned.owns sampleHeap 1%positive
  /\ exists v,
      Owned.observe sampleHeap 1%positive = Some v
      /\ Owned.toXml 1%positive sampleHeap = Some (toXml v, sampleHeap)
      /\ Owned.bind (Owned.toXml 1%positive)
           (fun first => Owned.bind (Owned.toXml 1%positive)
                           (fun second => Owned.ret (first, second))) sampleHeap
         = Some ((toXml v, toXml v), sampleHeap).
Proof.
  split; [exact sampleHeap_owned|].
  exact (Owned.toXml_reads_only sampleHeap 1%positive sampleHeap_owned).
Defined.

(** *** Further runs *)



Lemma syncResultPointerLessThan_order_witness :
  (forall p, syncResultPointerLessThan p p = false)
  /\ (forall p q r, syncResultPointerLessThan p q = true ->
                    syncResultPointerLessThan q r = true ->
                    syncResultPointerLessThan p r = true)
  /\ (forall p, syncResultPointerLessThan None p = false
                /\ syncResultPointerLessThan p None = false)
  /\ (forall a b, lessThan a b = true ->
                  syncResultPointerLessThan (Some a) None = false
                  /\ syncResultPointerLessThan None (Some a) = false
                  /\ syncResultPointerLessThan None (Some b) = false
                  /\ syncResultPointerLessThan (Some b) None = false
                  /\ syncResultPointerLessThan (Some a) (Some b) = true).
Proof.
  exact (syncResultPointerLessThan_order less_irrefl less_trans).
Defined.

Lemma best_written_once_witness :
  chronological [ok 1; failed 2; failed 3; failed 4; failed 5; failed 6]
  /\ iLastSuccessfulResults
       (recordAll (newSyncLog "p") [ok 1; failed 2; failed 3; failed 4; failed 5; failed 6])
     = Some (ok 1)
  /\ ((childNodes (toXml (recordAll (newSyncLog "p")
                            [ok 1; failed 2; failed 3; failed 4; failed 5; failed 6]))
       = resultsToXml (ok 1)
         :: map resultsToXml
              (iResults (recordAll (newSyncLog "p")
                           [ok 1; failed 2; failed 3; failed 4; failed 5; failed 6]))
       /\ ~ In (ok 1)
              (iResults (recordAll (newSyncLog "p")
                           [ok 1; failed 2; failed 3; failed 4; failed 5; failed 6])))
      \/ (childNodes (toXml (recordAll (newSyncLog "p")
                               [ok 1; failed 2; failed 3; failed 4; failed 5; failed 6]))
          = map resultsToXml
              (iResults (recordAll (newSyncLog "p")
                           [ok 1; failed 2; failed 3; failed 4; failed 5; failed 6]))
          /\ In (ok 1)
                (iResults (recordAll (newSyncLog "p")
                             [ok 1; failed 2; failed 3; failed 4; failed 5; failed 6])))).
Proof.
  assert (chronological [ok 1; failed 2; failed 3; failed 4; failed 5; failed 6]) as H.
  { unfold chronological.
    repeat first [apply Sorted_nil | apply HdRel_nil | apply Sorted_cons | apply HdRel_cons];
      reflexivity. }
  split; [exact H|]. split; [reflexivity|].
  exact (best_written_once less_trans less_total less_irrefl "p" _ (ok 1) H eq_refl).
Defined.

(** The log of the counterexample to the round trip comes back from the
    second document on. *)
Lemma roundtrip_stabilises_witness :
  fromXml (toXml (fromXml (toXml unorderedLog))) = fromXml (toXml unorderedLog)
  /\ toXml (fromXml (toXml (fromXml (toXml unorderedLog))))
     = toXml (fromXml (toXml unorderedLog)).
Proof.
  exact (roundtrip_stabilises less_trans less_total less_irrefl write_tagged read_write
           "p" [ok 10; failed 5; ok 1; failed 6; failed 7; failed 8]).
Defined.

Lemma accessors_simulate_witness :
  Owned.owns sampleHeap 1%positive
  /\ exists v,
      Owned.observe sampleHeap 1%positive = Some v
      /\ Owned.profileName 1%positive sampleHeap = Some (profileName v, sampleHeap)
      /\ (exists ps, Owned.allResults 1%positive sampleHeap = Some (ps, sampleHeap)
                     /\ Forall2 (Owned.pointsTo sampleHeap) ps (allResults v))
      /\ (exists p, Owned.lastResults 1%positive sampleHeap = Some (p, sampleHeap)
                    /\ option_Forall2 (Owned.pointsTo sampleHeap) p (lastResults v))
      /\ (exists p, Owned.lastSuccessfulResults 1%positive sampleHeap = Some (p, sampleHeap)
                    /\ option_Forall2 (Owned.pointsTo sampleHeap) p
                         (lastSuccessfulResults v)).
Proof.
  split; [exact sampleHeap_owned|].
  exact (Owned.accessors_simulate sampleHeap 1%positive sampleHeap_owned).
Defined.


Lemma copy_then_destroy_witness :
  Owned.owns sampleHeap 1%positive
  /\ exists b h1,
      Owned.copySyncLog 1%positive sampleHeap = Some (b, h1)
      /\ Owned.privateObjects sampleHeap !! b = None
      /\ Owned.destroySyncLog b h1 = Some (tt, sampleHeap).
Proof.
  split; [exact sampleHeap_owned|].
  exact (Owned.copy_then_destroy sampleHeap 1%positive sampleHeap_owned).
Defined.

(** A heap with a full log, named "q", and one more object, at address
    9, that belongs to the caller. *)
Definition fullHeap : Owned.Heap :=
  Owned.mkHeap {[ 1%positive := ok 1; 2%positive := ok 2; 3%positive := ok 3;
                  4%positive := ok 4; 5%positive := ok 5; 6%positive := ok 5;
                  9%positive := ok 7 ]}
               {[ 1%positive := Owned.mkPrivate "q"
                                  [1%positive; 2%positive; 3%positive; 4%positive; 5%positive]
                                  (Some 6%positive) ]}.

Definition fullLog : Owned.SyncLogPrivate :=
  Owned.mkPrivate "q" [1%positive; 2%positive; 3%positive; 4%positive; 5%positive]
                  (Some 6%positive).

Lemma fullHeap_owned : Owned.owns fullHeap 1%positive.
Proof.
  exists fullLog. split; [reflexivity|]. split.
  - unfold Owned.footprint. simpl. compute_done.
  - unfold Owned.footprint. simpl. repeat (apply Forall_cons; split; [by eexists|]).
    apply Forall_nil_2.
Qed.

Lemma fullHeap_caller d :
  Owned.privateObjects fullHeap !! 1%positive = Some d -> 9%positive ∉ Owned.footprint d.
Proof. intros [= <-]. unfold Owned.footprint. simpl. compute_done. Qed.

Lemma addResultsRef_outside_witness :
  Owned.owns fullHeap 1%positive
  /\ Owned.pointsTo fullHeap 9%positive (ok 7)
  /\ Owned.addResultsRef 1%positive 9%positive fullHeap
     = Owned.addResults 1%positive (ok 7) fullHeap.
Proof.
  split; [exact fullHeap_owned|]. split; [reflexivity|].
  exact (Owned.addResultsRef_outside fullHeap 1%positive 9%positive (ok 7)
           fullHeap_owned eq_refl fullHeap_caller).
Defined.

Lemma addResultsRef_own_oldest_witness :
  Owned.owns fullHeap 1%positive
  /\ Owned.privateObjects fullHeap !! 1%positive = Some fullLog
  /\ Owned.addResultsRef 1%positive 1%positive fullHeap = None.
Proof.
  split; [exact fullHeap_owned|]. split; [reflexivity|].
  refine (Owned.addResultsRef_own_oldest fullHeap 1%positive fullLog 1%positive
            [2%positive; 3%positive; 4%positive; 5%positive]
            fullHeap_owned eq_refl eq_refl _).
  simpl. unfold MAXLOGENTRIES. lia.
Defined.

(** The two calls on [fullHeap], run. *)
Example by_reference_runs :
  (snd <$> Owned.addResultsRef 1%positive 9%positive fullHeap)
    ≫= (fun h => Owned.observe h 1%positive)
  = Some (mkPrivate "q" [ok 2; ok 3; ok 4; ok 5; ok 7] (Some (ok 7)))
  /\ Owned.addResultsRef 1%positive 1%positive fullHeap = None.
Proof. split; vm_compute; reflexivity. Qed.

Lemma fullHeap_outside : Owned.outside fullHeap 9%positive.
Proof.
  intros log d Hd. unfold fullHeap in Hd. cbn [Owned.privateObjects] in Hd.
  apply lookup_singleton_Some in Hd as [<- <-]. unfold Owned.footprint. simpl. compute_done.
Qed.

Lemma addResultsRef_simulates_witness :
  Owned.owns fullHeap 1%positive
  /\ Owned.pointsTo fullHeap 9%positive (ok 7)
  /\ exists v h',
      Owned.observe fullHeap 1%positive = Some v
      /\ Owned.addResultsRef 1%positive 9%positive fullHeap = Some (tt, h')
      /\ Owned.owns h' 1%positive
      /\ Owned.observe h' 1%positive = Some (addResults v (ok 7))
      /\ Owned.pointsTo h' 9%positive (ok 7)
      /\ (forall d', Owned.privateObjects h' !! 1%positive = Some d' ->
                     9%positive ∉ Owned.footprint d').
Proof.
  split; [exact fullHeap_owned|]. split; [reflexivity|].
  exact (Owned.addResultsRef_simulates fullHeap 1%positive 9%positive (ok 7)
           fullHeap_owned eq_refl fullHeap_caller).
Defined.

Lemma recordAllRef_simulates_witness :
  Owned.owns fullHeap 1%positive
  /\ Forall2 (Owned.pointsTo fullHeap) [9%positive; 9%positive] [ok 7; ok 7]
  /\ exists v h',
      Owned.observe fullHeap 1%positive = Some v
      /\ Owned.recordAllRef 1%positive [9%positive; 9%positive] fullHeap = Some (tt, h')
      /\ Owned.owns h' 1%positive
      /\ Owned.observe h' 1%positive = Some (recordAll v [ok 7; ok 7])
      /\ Forall2 (Owned.pointsTo h') [9%positive; 9%positive] [ok 7; ok 7].
Proof.
  assert (Forall2 (Owned.pointsTo fullHeap) [9%positive; 9%positive] [ok 7; ok 7]) as Hrefs
    by (repeat constructor).
  split; [exact fullHeap_owned|]. split; [exact Hrefs|].
  refine (Owned.recordAllRef_simulates fullHeap 1%positive [9%positive; 9%positive]
            [ok 7; ok 7] fullHeap_owned Hrefs _).
  intros d Hd. repeat constructor; by apply fullHeap_caller.
Defined.

(** Changes by reference to the caller's object at 9: recorded on the
    copy, the original renamed, recorded on the original. *)
Definition changesByReference : list (bool * Owned.MutationRef) :=
  [(false, Owned.RecordRef 9%positive); (true, Owned.RenameRef "r");
   (true, Owned.RecordRef 9%positive)].

Definition changesByValue : list (bool * Owned.Mutation) :=
  [(false, Owned.Record (ok 7)); (true, Owned.Rename "r"); (true, Owned.Record (ok 7))].

Lemma copy_is_deep_by_reference_witness :
  Owned.owns fullHeap 1%positive
  /\ Owned.allReferTo fullHeap changesByReference changesByValue
  /\ exists v b h1 h2,
      Owned.observe fullHeap 1%positive = Some v
      /\ Owned.copySyncLog 1%positive fullHeap = Some (b, h1)
      /\ Owned.observe h1 1%positive = Some v
      /\ Owned.observe h1 b = Some v
      /\ Owned.mutateBothRef 1%positive b changesByReference h1 = Some (tt, h2)
      /\ Owned.observe h2 1%positive
         = Some (fold_left Owned.mutateValue (Owned.changesOf true changesByValue) v)
      /\ Owned.observe h2 b
         = Some (fold_left Owned.mutateValue (Owned.changesOf false changesByValue) v).
Proof.
  assert (Owned.allReferTo fullHeap changesByReference changesByValue) as Hall.
  { repeat constructor; apply fullHeap_outside. }
  split; [exact fullHeap_owned|]. split; [exact Hall|].
  exact (Owned.copy_is_deep_by_reference fullHeap 1%positive
           changesByReference changesByValue fullHeap_owned Hall).
Defined.

(** *** A log asked to record one of its own entries *)

Notation "'let*' x := c 'in' k" := (Owned.bind c (fun x => k))
  (at level 10, x name, c at level 100, k at level 200).

(** [log.addResults( *log.allResults().first())] *)
Definition recordOwnOldest (log : Owned.ptr) : Owned.Op unit :=
  let* entries := Owned.allResults log in
  match entries with
  | first :: _ => Owned.addResultsRef log first
  | [] => Owned.undefined
  end.

(** [log.addResults( *log.lastResults())] *)
Definition recordOwnNewest (log : Owned.ptr) : Owned.Op unit :=
  let* newest := Owned.lastResults log in
  match newest with
  | Some last => Owned.addResultsRef log last
  | None => Owned.undefined
  end.

(** A new log named "p" on which the caller records its five objects. *)
Definition recordFive : Owned.Op Owned.ptr :=
  Owned.recordOnNewLog "p" [11%positive; 12%positive; 13%positive; 14%positive; 15%positive].

(** The caller's objects: five successes in time order. *)
Definition callerHeap : Owned.Heap :=
  Owned.mkHeap {[ 11%positive := ok 1; 12%positive := ok 2; 13%positive := ok 3;
                  14%positive := ok 4; 15%positive := ok 5 ]} ∅.

(** The caller's objects: the latest success first, then four failures. *)
Definition callerHeapLateFirst : Owned.Heap :=
  Owned.mkHeap {[ 11%positive := ok 9; 12%positive := failed 2; 13%positive := failed 3;
                  14%positive := failed 4; 15%positive := failed 5 ]} ∅.

(** The caller records its five objects and the first of them again. *)
Definition callerRefs : list Owned.ptr :=
  [11%positive; 12%positive; 13%positive; 14%positive; 15%positive; 11%positive].

Lemma recordAllRef_on_new_log_witness :
  Forall2 (Owned.pointsTo callerHeap) callerRefs [ok 1; ok 2; ok 3; ok 4; ok 5; ok 1]
  /\ exists log h' v,
      Owned.recordOnNewLog "p" callerRefs callerHeap = Some (log, h')
      /\ Owned.privateObjects callerHeap !! log = None
      /\ Owned.owns h' log
      /\ Owned.observe h' log = Some v
      /\ v = recordAll (newSyncLog "p") [ok 1; ok 2; ok 3; ok 4; ok 5; ok 1]
      /\ iResults v
         = drop (length [ok 1; ok 2; ok 3; ok 4; ok 5; ok 1] - 5)
                [ok 1; ok 2; ok 3; ok 4; ok 5; ok 1]
      /\ length (iResults v) = Nat.min (length [ok 1; ok 2; ok 3; ok 4; ok 5; ok 1]) 5
      /\ lastResults v = last [ok 1; ok 2; ok 3; ok 4; ok 5; ok 1]
      /\ Forall2 (Owned.pointsTo h') callerRefs [ok 1; ok 2; ok 3; ok 4; ok 5; ok 1].
Proof.
  assert (Forall2 (Owned.pointsTo callerHeap) callerRefs
            [ok 1; ok 2; ok 3; ok 4; ok 5; ok 1]) as Hrefs by (repeat constructor).
  split; [exact Hrefs|].
  exact (Owned.recordAllRef_on_new_log callerHeap "p" callerRefs
           [ok 1; ok 2; ok 3; ok 4; ok 5; ok 1] Hrefs).
Defined.

Lemma recordAllRef_best_maximum_witness :
  Forall2 (Owned.pointsTo callerHeapLateFirst) callerRefs
          [ok 9; failed 2; failed 3; failed 4; failed 5; ok 9]
  /\ exists log h' v,
      Owned.recordOnNewLog "p" callerRefs callerHeapLateFirst = Some (log, h')
      /\ Owned.observe h' log = Some v
      /\ match lastSuccessfulResults v with
         | Some best =>
             isMaximum best
               (List.filter isSyncSuccessful
                  [ok 9; failed 2; failed 3; failed 4; failed 5; ok 9])
         | None =>
             List.filter isSyncSuccessful
               [ok 9; failed 2; failed 3; failed 4; failed 5; ok 9] = []
         end.
Proof.
  assert (Forall2 (Owned.pointsTo callerHeapLateFirst) callerRefs
            [ok 9; failed 2; failed 3; failed 4; failed 5; ok 9]) as Hrefs
    by (repeat constructor).
  split; [exact Hrefs|].
  exact (Owned.recordAllRef_best_maximum less_trans less_total callerHeapLateFirst "p"
           callerRefs [ok 9; failed 2; failed 3; failed 4; failed 5; ok 9] Hrefs).
Defined.

(** C9. On the full log of [fullHeap], which holds [ok 1 .. ok 5], the
    call [addResults( *allResults().first())] deletes the oldest entry
    (the eviction) and then copies from the reference to it: the read
    finds no live object and the call has no defined result, so no state
    follows in which [lastResults] gives the recorded results.  Recording
    the value [ok 1] would leave [ok 1] last.  The same call with the
    newest entry, which the eviction does not delete, is defined and
    leaves the recorded results last. *)
Theorem lastResults_own_oldest :
  Owned.observe fullHeap 1%positive
  = Some (mkPrivate "q" [ok 1; ok 2; ok 3; ok 4; ok 5] (Some (ok 5)))
  /\ fst <$> Owned.allResults 1%positive fullHeap
     = Some [1%positive; 2%positive; 3%positive; 4%positive; 5%positive]
  /\ Owned.pointsTo fullHeap 1%positive (ok 1)
  /\ recordOwnOldest 1%positive fullHeap = None
  /\ lastResults (addResults (mkPrivate "q" [ok 1; ok 2; ok 3; ok 4; ok 5] (Some (ok 5)))
                             (ok 1))
     = Some (ok 1)
  /\ (snd <$> recordOwnNewest 1%positive fullHeap)
       ≫= (fun h => Owned.observe h 1%positive ≫= lastResults)
     = Some (ok 5).
Proof. repeat split; vm_compute; reflexivity. Qed.

(** C1. A log is constructed empty and the caller's five results are
    recorded: the log is full and holds them in order.  The sixth call,
    [addResults( *allResults().first())], has no defined result (the
    oldest entry is deleted before it is copied), so no list of length
    min(6, 5) follows.  Recording the values [ok 1 .. ok 5; ok 1] would
    leave the five most recent, [ok 2 .. ok 5; ok 1]. *)
Theorem capacity_own_oldest :
  fst <$> recordFive callerHeap = Some 1%positive
  /\ (snd <$> recordFive callerHeap) ≫= (fun h => Owned.observe h 1%positive)
     = Some (recordAll (newSyncLog "p") [ok 1; ok 2; ok 3; ok 4; ok 5])
  /\ iResults (recordAll (newSyncLog "p") [ok 1; ok 2; ok 3; ok 4; ok 5])
     = [ok 1; ok 2; ok 3; ok 4; ok 5]
  /\ (let* log := recordFive in recordOwnOldest log) callerHeap = None
  /\ iResults (recordAll (newSyncLog "p") [ok 1; ok 2; ok 3; ok 4; ok 5; ok 1])
     = [ok 2; ok 3; ok 4; ok 5; ok 1].
Proof. repeat split; vm_compute; reflexivity. Qed.

(** C2. A log is constructed empty and the caller's results [ok 9],
    [failed 2 .. failed 5] are recorded: the last successful results are
    [ok 9], which is also the oldest entry.  The sixth call,
    [addResults( *allResults().first())], has no defined result, so the
    log has no last successful results to compare with the maximum.
    Recording the values [ok 9; failed 2 .. failed 5; ok 9] would leave
    the maximum, [ok 9]. *)
Theorem best_own_oldest :
  (snd <$> recordFive callerHeapLateFirst) ≫= (fun h => Owned.observe h 1%positive)
  = Some (mkPrivate "p" [ok 9; failed 2; failed 3; failed 4; failed 5] (Some (ok 9)))
  /\ (let* log := recordFive in recordOwnOldest log) callerHeapLateFirst = None
  /\ lastSuccessfulResults
       (recordAll (newSyncLog "p") [ok 9; failed 2; failed 3; failed 4; failed 5; ok 9])
     = Some (ok 9).
Proof. repeat split; vm_compute; reflexivity. Qed.

(** C7. The full log of [fullHeap] is copied: the copy, at 2, holds what
    the original holds.  The call [addResults( *allResults().first())] on
    the copy has no defined result (the copy's oldest entry is deleted
    before it is copied), and so has the same call on the original: no
    state of the two logs follows.  The same call with the newest entry
    of the copy is defined and leaves the original as it was. *)
Theorem copy_own_oldest :
  fst <$> Owned.copySyncLog 1%positive fullHeap = Some 2%positive
  /\ (snd <$> Owned.copySyncLog 1%positive fullHeap)
       ≫= (fun h => Some (Owned.observe h 1%positive, Owned.observe h 2%positive))
     = Some (Some (mkPrivate "q" [ok 1; ok 2; ok 3; ok 4; ok 5] (Some (ok 5))),
             Some (mkPrivate "q" [ok 1; ok 2; ok 3; ok 4; ok 5] (Some (ok 5))))
  /\ (let* b := Owned.copySyncLog 1%positive in recordOwnOldest b) fullHeap = None
  /\ (let* b := Owned.copySyncLog 1%positive in recordOwnOldest 1%positive) fullHeap = None
  /\ (snd <$> (let* b := Owned.copySyncLog 1%positive in recordOwnNewest b) fullHeap)
       ≫= (fun h => Some (Owned.observe h 1%positive, Owned.observe h 2%positive))
     = Some (Some (mkPrivate "q" [ok 1; ok 2; ok 3; ok 4; ok 5] (Some (ok 5))),
             Some (mkPrivate "q" [ok 2; ok 3; ok 4; ok 5; ok 5] (Some (ok 5)))).
Proof. repeat split; vm_compute; reflexivity. Qed.

End Scenarios.
